(** * coax: n-step reward tracing, TD targets and the dynamics-model contract

    A shallow embedding of

    - [coax/reward_tracing/_nstep.py]   (class [NStepCache]),
    - [coax/td_learning/_simple_td.py]  (class [SimpleTD]),

    together with the parts of the transition records, of the TD base class
    and of [DynamicsModel] that these rely on.

    Python objects that are mutated in place are modelled by explicit state
    passing in a state-and-exception monad: a method maps the object before
    the call to an outcome (a raised exception or a returned value) and the
    object after the call, so that what a raising call leaves behind is part
    of the model. *)

From Stdlib Require Import ZArith QArith Lia.
From stdpp Require Import base list strings gmap.

Set Default Proof Using "Type".

Open Scope Z_scope.

(** ** Numbers

    Rewards, discount factors and log-probabilities are Python / numpy
    floats.  The embedding never relies on an algebraic law of the number
    type: it is generic in the operations the code applies, so every
    theorem below holds for any interpretation of them. *)

Class Num (num : Type) := {
  nzero : num;                      (* the int [0] that [sum] starts from, and a zero weight *)
  nadd : num -> num -> num;         (* [x + y] *)
  nmul : num -> num -> num;         (* [x * y] *)
  npower : num -> Z -> num          (* [onp.power(x, k)] *)
}.

(** Exact rationals, used to run the definitions on concrete inputs. *)
#[export] Instance Q_Num : Num Q := {
  nzero := 0%Q;
  nadd := Qplus;
  nmul := Qmult;
  npower := Qpower
}.

(** Closed side conditions are settled by running the definitions. *)
Ltac by_computation :=
  vm_compute; first [ reflexivity | lia | discriminate | repeat split; discriminate ].

(** ** Python helpers *)

Inductive exn : Type :=
  | EpisodeDoneError
  | InsufficientCacheError
  | IndexError
  | ValueError
  | KeyError (key : string).

(** [len(d)] *)
Definition len {X} (d : list X) : Z := Z.of_nat (length d).

(** [onp.arange(n)]: [0, 1, ..., n-1], empty when [n <= 0]. *)
Definition arange (n : Z) : list Z := Z.of_nat <$> seq 0 (Z.to_nat n).

(** [itertools.islice(it, stop)]: a negative [stop] is a [ValueError]. *)
Definition islice {X} (it : list X) (stop : Z) : exn + list X :=
  if stop <? 0 then inl ValueError else inr (take (Z.to_nat stop) it).

(** [d[i]] on a deque: a negative index counts from the right end, an index
    outside the deque is an [IndexError]. *)
Definition deque_getitem {X} (d : list X) (i : Z) : exn + X :=
  let j := if i <? 0 then i + len d else i in
  if (j <? 0) || (len d <=? j) then inl IndexError
  else match d !! Z.to_nat j with
       | Some x => inr x
       | None => inl IndexError
       end.

(** [zip(xs, ys)] stops at the shorter argument. *)
Fixpoint zip_py {X Y} (xs : list X) (ys : list Y) : list (X * Y) :=
  match xs, ys with
  | x :: xs', y :: ys' => (x, y) :: zip_py xs' ys'
  | _, _ => []
  end.

(** [sum(x * r for x, r in pairs)]: the built-in [sum] starts from [0] and
    adds the terms from left to right. *)
Definition sum_products {num : Type} `{!Num num} (pairs : list (num * num)) : num :=
  fold_left (fun acc xr => nadd acc (nmul (fst xr) (snd xr))) pairs nzero.

(** ** Transitions *)

Module TransitionSingle.
Record t (State Action num : Type) := mk {
  s : State;
  a : Action;
  logp : num;
  r : num;
  done : bool;
  s_next : State;
  a_next : Action;
  logp_next : num
}.
Arguments mk {State Action num}.
Arguments s {State Action num}.
Arguments a {State Action num}.
Arguments logp {State Action num}.
Arguments r {State Action num}.
Arguments done {State Action num}.
Arguments s_next {State Action num}.
Arguments a_next {State Action num}.
Arguments logp_next {State Action num}.
End TransitionSingle.

(** The batch is a named tuple whose fields come in the order
    [S, A, logp, Rn, In, S_next, A_next, logp_next]; [SimpleTD.target_func]
    relies on that order when it takes the slice [[3:6]]. *)
Module TransitionBatch.
Record t (States Actions Arr : Type) := mk {
  S : States;
  A : Actions;
  logp : Arr;
  Rn : Arr;
  In : Arr;
  S_next : States;
  A_next : Actions;
  logp_next : Arr
}.
Arguments mk {States Actions Arr}.
Arguments S {States Actions Arr}.
Arguments A {States Actions Arr}.
Arguments logp {States Actions Arr}.
Arguments Rn {States Actions Arr}.
Arguments In {States Actions Arr}.
Arguments S_next {States Actions Arr}.
Arguments A_next {States Actions Arr}.
Arguments logp_next {States Actions Arr}.
End TransitionBatch.

(** Modelled from the spec: [TransitionSingle.to_batch] lives in
    [coax/reward_tracing/_transition.py], which is not part of the sources at
    hand.  The spec describes the batch as the vectorised form of single
    transitions, with [Rn] the n-step partial return and [In] the bootstrap
    indicator: "0 if the bootstrap target is terminal, else gamma^n", the
    discount being the [gamma] argument of the conversion.  A single
    transition becomes a batch with one row. *)
Definition to_batch {num : Type} `{!Num num} {State Action : Type}
    (gamma : num) (tr : TransitionSingle.t State Action num)
    : TransitionBatch.t (list State) (list Action) (list num) :=
  TransitionBatch.mk
    [TransitionSingle.s tr]
    [TransitionSingle.a tr]
    [TransitionSingle.logp tr]
    [TransitionSingle.r tr]
    [if TransitionSingle.done tr then nzero else gamma]
    [TransitionSingle.s_next tr]
    [TransitionSingle.a_next tr]
    [TransitionSingle.logp_next tr].

(** ** [NStepCache] *)

Module NStepCache.
Section Cache.
Context {State Action num : Type} `{!Num num}.

Record t := mk {
  n : Z;                                      (* [int(n)] *)
  gamma : num;                                (* [float(gamma)] *)
  _deque_sap : list (State * Action * num);   (* left end first *)
  _deque_r : list num;
  _done : bool;
  _gammas : list num;
  _gamman : num
}.

(** The state-and-exception monad of the methods of one cache object. *)
Definition M (X : Type) : Type := t -> (exn + X) * t.

#[global] Instance M_ret : MRet M := fun X x self => (inr x, self).
#[global] Instance M_bind : MBind M := fun X Y k m self =>
  match m self with
  | (inl e, self') => (inl e, self')
  | (inr x, self') => k x self'
  end.
Definition raise {X} (e : exn) : M X := fun self => (inl e, self).
Definition get : M t := fun self => (inr self, self).
Definition modify (f : t -> t) : M unit := fun self => (inr tt, f self).
Definition lift {X} (v : exn + X) : M X := fun self => (v, self).

Definition set_deque_sap (d : list (State * Action * num)) (self : t) : t :=
  mk (n self) (gamma self) d (_deque_r self) (_done self) (_gammas self) (_gamman self).
Definition set_deque_r (d : list num) (self : t) : t :=
  mk (n self) (gamma self) (_deque_sap self) d (_done self) (_gammas self) (_gamman self).
Definition set_done (b : bool) (self : t) : t :=
  mk (n self) (gamma self) (_deque_sap self) (_deque_r self) b (_gammas self) (_gamman self).

(** [deque.popleft()] on either queue; an empty deque raises [IndexError]. *)
Definition popleft_sap : M (State * Action * num) := fun self =>
  match _deque_sap self with
  | [] => (inl IndexError, self)
  | x :: d => (inr x, set_deque_sap d self)
  end.
Definition popleft_r : M num := fun self =>
  match _deque_r self with
  | [] => (inl IndexError, self)
  | x :: d => (inr x, set_deque_r d self)
  end.

(** [reset]: lines 62-67. *)
Definition reset : M unit := fun self =>
  (inr tt,
   mk (n self) (gamma self) [] [] false
      (npower (gamma self) <$> arange (n self))
      (npower (gamma self) (n self))).

(** [__init__]: lines 56-60 (the environment is only handed to the base
    class and plays no part here). *)
Definition __init__ (n0 : Z) (gamma0 : num) : t :=
  snd (reset (mk n0 gamma0 [] [] false [] nzero)).

(** [__len__]: line 80. *)
Definition __len__ : M Z := self ← get; mret (len (_deque_sap self)).

(** [__bool__]: line 83. *)
Definition __bool__ : M bool :=
  l ← __len__;
  self ← get;
  mret ((negb (l =? 0)) && (_done self || (n self <? l))).

(** [add]: lines 69-77.  [self._done and len(self)] is truthy when the
    flag is set and the length is not zero. *)
Definition add (s : State) (a : Action) (r : num) (done : bool) (logp : num) : M unit :=
  self ← get;
  l ← __len__;
  if _done self && negb (l =? 0) then raise EpisodeDoneError
  else
    modify (fun self => set_deque_sap (_deque_sap self ++ [(s, a, logp)]) self);;
    modify (fun self => set_deque_r (_deque_r self ++ [r]) self);;
    modify (set_done done).

(** [pop], lines 85-109: everything up to the construction of the single
    transition. *)
Definition pop_transition : M (TransitionSingle.t State Action num) :=
  ready ← __bool__;
  if negb ready then raise InsufficientCacheError
  else
    '(s, a, logp) ← popleft_sap;
    self ← get;
    sliced ← lift (islice (zip_py (_gammas self) (_deque_r self)) (n self));
    let rn := sum_products sliced in
    popleft_r;;
    l ← __len__;
    if n self <=? l then
      self' ← get;
      '(s_next, a_next, logp_next) ← lift (deque_getitem (_deque_sap self') (n self - 1));
      mret (TransitionSingle.mk s a logp rn false s_next a_next logp_next)
    else
      mret (TransitionSingle.mk s a logp rn true s a logp).

(** [pop], line 111: the transition is returned in batch form. *)
Definition pop : M (TransitionBatch.t (list State) (list Action) (list num)) :=
  transition ← pop_transition;
  self ← get;
  mret (to_batch (_gamman self) transition).

(** *** Callers

    The cache is driven by one rollout loop that feeds it environment steps
    and drains it.  These are the loops the properties below talk about. *)

(** The arguments of one [add] call. *)
Record step := mk_step {
  step_s : State;
  step_a : Action;
  step_r : num;
  step_done : bool;
  step_logp : num
}.

Definition add_step (x : step) : M unit :=
  add (step_s x) (step_a x) (step_r x) (step_done x) (step_logp x).

(** [for x in steps: cache.add(s, a, r, done, logp)] *)
Fixpoint add_all (steps : list step) : M unit :=
  match steps with
  | [] => mret tt
  | x :: steps' => add_step x;; add_all steps'
  end.

(** [[cache.pop() for _ in range(k)]], before and after the conversion to
    batch form. *)
Fixpoint pop_transition_times (k : nat) : M (list (TransitionSingle.t State Action num)) :=
  match k with
  | O => mret []
  | S k' => tr ← pop_transition; trs ← pop_transition_times k'; mret (tr :: trs)
  end.

Fixpoint pop_times (k : nat)
    : M (list (TransitionBatch.t (list State) (list Action) (list num))) :=
  match k with
  | O => mret []
  | S k' => tb ← pop; tbs ← pop_times k'; mret (tb :: tbs)
  end.

(** An arbitrary sequence of method calls on one cache, with a ghost
    counter of the steps that were accepted by [add] and not yet emitted by
    [pop] since the last [reset]. *)
Inductive call :=
  | CallReset
  | CallAdd (x : step)
  | CallPop
  | CallLen
  | CallBool.

Definition succeeded {X} (res : exn + X) : bool :=
  match res with inl _ => false | inr _ => true end.

Definition run_call (c : call) (self : t) (buffered : Z) : t * Z :=
  match c with
  | CallReset => (snd (reset self), 0)
  | CallAdd x =>
      let '(res, self') := add_step x self in
      (self', if succeeded res then buffered + 1 else buffered)
  | CallPop =>
      let '(res, self') := pop self in
      (self', if succeeded res then buffered - 1 else buffered)
  | CallLen => (snd (__len__ self), buffered)
  | CallBool => (snd (__bool__ self), buffered)
  end.

Fixpoint run (calls : list call) (self : t) (buffered : Z) : t * Z :=
  match calls with
  | [] => (self, buffered)
  | c :: calls' => let '(self', buffered') := run_call c self buffered in run calls' self' buffered'
  end.

(** *** Specification-side definitions *)

(** The n-step partial return as the spec writes it,
    [Rn = sum_{k=0}^{n-1} gamma^k * r_k], over at most the first [n]
    rewards, the terms being added in the order of [k]. *)
Fixpoint discounted_from (g : num) (k : Z) (rs : list num) (acc : num) : num :=
  match rs with
  | [] => acc
  | r :: rs' => discounted_from g (k + 1) rs' (nadd acc (nmul (npower g k) r))
  end.

Definition discounted_sum (g : num) (n0 : Z) (rs : list num) : num :=
  discounted_from g 0 (take (Z.to_nat n0) rs) nzero.

(** The readiness predicate as the spec writes it. *)
Definition ready (self : t) : Prop :=
  (1 <= length (_deque_sap self))%nat /\
  (_done self = true \/ n self < len (_deque_sap self)).

(** The two queues run in parallel. *)
Definition queues_aligned (self : t) : Prop :=
  length (_deque_sap self) = length (_deque_r self).

(** *** Auxiliary definitions *)

(** The n-step return [pop] computes from a cache whose reward queue has
    not been popped yet. *)
Definition partial_return (self : t) : num :=
  sum_products (take (Z.to_nat (n self)) (zip_py (_gammas self) (_deque_r self))).

(** What [pop] leaves behind: both queues without their oldest entry. *)
Definition popped (self : t) : t :=
  set_deque_r (tail (_deque_r self)) (set_deque_sap (tail (_deque_sap self)) self).

(** The fields a method does not assign keep their value. *)
Definition same_config (self self' : t) : Prop :=
  n self' = n self /\ gamma self' = gamma self /\
  _gammas self' = _gammas self /\ _gamman self' = _gamman self.

Definition sap_of (x : step) : State * Action * num := (step_s x, step_a x, step_logp x).

(** Every step but the last one is non-terminal. *)
Definition open_prefix (steps : list step) : Prop :=
  forall i x, steps !! i = Some x -> (S i < length steps)%nat -> step_done x = false.

(** The cache after the steps have been appended. *)
Definition extended (self : t) (steps : list step) : t :=
  mk (n self) (gamma self)
     (_deque_sap self ++ (sap_of <$> steps))
     (_deque_r self ++ (step_r <$> steps))
     (default (_done self) (step_done <$> last steps))
     (_gammas self) (_gamman self).

(** *** Unfolding the monad *)

Lemma bind_inr {X Y} (m : M X) (k : X -> M Y) self x self' :
  m self = (inr x, self') -> (m ≫= k) self = k x self'.
Proof. intros Hm. unfold mbind, M_bind. now rewrite Hm. Qed.

Lemma bind_inl {X Y} (m : M X) (k : X -> M Y) self e self' :
  m self = (inl e, self') -> (m ≫= k) self = (inl e, self').
Proof. intros Hm. unfold mbind, M_bind. now rewrite Hm. Qed.

Lemma len_eq self : __len__ self = (inr (len (_deque_sap self)), self).
Proof. reflexivity. Qed.

Lemma bool_eq self :
  __bool__ self =
  (inr (negb (len (_deque_sap self) =? 0) && (_done self || (n self <? len (_deque_sap self)))),
   self).
Proof. reflexivity. Qed.

Lemma bool_ready self b :
  fst (__bool__ self) = inr b -> (b = true <-> ready self).
Proof.
  rewrite bool_eq. cbn [fst]. intros [= <-]. unfold ready, len.
  rewrite andb_true_iff, orb_true_iff, negb_true_iff, Z.eqb_neq, Z.ltb_lt.
  split; intros [H1 H2]; split; try assumption; lia.
Qed.

Lemma add_eq s a r done logp self :
  add s a r done logp self =
  if _done self && negb (len (_deque_sap self) =? 0)
  then (inl EpisodeDoneError, self)
  else (inr tt,
        mk (n self) (gamma self) (_deque_sap self ++ [(s, a, logp)])
           (_deque_r self ++ [r]) done (_gammas self) (_gamman self)).
Proof.
  unfold add, mbind, M_bind, get, __len__, mret, M_ret. simpl.
  destruct (_done self && negb (len (_deque_sap self) =? 0)); reflexivity.
Qed.

Lemma pop_transition_not_ready self :
  fst (__bool__ self) = inr false ->
  pop_transition self = (inl InsufficientCacheError, self).
Proof.
  rewrite bool_eq. cbn [fst]. intros [= Hb].
  unfold pop_transition. erewrite bind_inr by apply bool_eq.
  rewrite Hb. reflexivity.
Qed.

Lemma pop_transition_ready self s a logp d r0 dr :
  fst (__bool__ self) = inr true ->
  0 <= n self ->
  _deque_sap self = (s, a, logp) :: d ->
  _deque_r self = r0 :: dr ->
  pop_transition self =
  let self' := set_deque_r dr (set_deque_sap d self) in
  if n self <=? len d then
    match deque_getitem d (n self - 1) with
    | inl e => (inl e, self')
    | inr (s_next, a_next, logp_next) =>
        (inr (TransitionSingle.mk s a logp (partial_return self) false
                s_next a_next logp_next), self')
    end
  else
    (inr (TransitionSingle.mk s a logp (partial_return self) true s a logp), self').
Proof.
  rewrite bool_eq. cbn [fst]. intros [= Hb] Hn Hsap Hr.
  unfold pop_transition. erewrite bind_inr by apply bool_eq.
  rewrite Hb. cbn [negb].
  unfold popleft_sap, popleft_r, partial_return, islice, lift, get, __len__,
    mbind, M_bind, mret, M_ret.
  rewrite Hsap. cbn.
  destruct (Z.ltb_spec (n self) 0) as [?|_]; [lia|].
  rewrite Hr. cbn.
  destruct (n self <=? len d); [|reflexivity].
  change (_deque_sap (set_deque_r dr (set_deque_sap d self))) with d.
  destruct (deque_getitem d (n self - 1)) as [e|[[s' a'] l']]; reflexivity.
Qed.

Lemma deque_getitem_lookup {X} (d : list X) (i : Z) :
  0 <= i < len d ->
  exists x, d !! Z.to_nat i = Some x /\ deque_getitem d i = inr x.
Proof.
  intros Hi. unfold deque_getitem.
  destruct (Z.ltb_spec i 0) as [?|_]; [lia|].
  destruct (Z.ltb_spec i 0) as [?|_]; [lia|].
  destruct (Z.leb_spec (len d) i) as [?|_]; [lia|]. cbn.
  destruct (lookup_lt_is_Some_2 d (Z.to_nat i)) as [x Hx]; [unfold len in Hi; lia|].
  exists x. now rewrite Hx.
Qed.

Ltac unfold_pop :=
  unfold pop_transition, __bool__, __len__, popleft_sap, popleft_r, islice, lift,
    get, raise, mbind, M_bind, mret, M_ret.

Lemma pop_transition_frame self res self' :
  pop_transition self = (res, self') ->
  same_config self self' /\ _done self' = _done self.
Proof.
  unfold_pop. cbn.
  destruct (negb (negb _ && _)); [intros [= <- <-]; now repeat split|].
  destruct (_deque_sap self) as [|[[s a] logp] d] eqn:Hsap;
    [intros [= <- <-]; now repeat split|].
  cbn. destruct (n self <? 0); [intros [= <- <-]; now repeat split|].
  cbn. destruct (_deque_r self) as [|r0 dr];
    [intros [= <- <-]; now repeat split|].
  cbn. destruct (n self <=? len d).
  - destruct (deque_getitem _ _) as [e|[[s' a'] l']];
      intros [= <- <-]; now repeat split.
  - intros [= <- <-]; now repeat split.
Qed.

Lemma pop_eq self :
  pop self =
  match pop_transition self with
  | (inl e, self') => (inl e, self')
  | (inr tr, self') => (inr (to_batch (_gamman self) tr), self')
  end.
Proof.
  unfold pop, mbind, M_bind at 1.
  destruct (pop_transition self) as [[e|tr] self'] eqn:Hp; [reflexivity|].
  apply pop_transition_frame in Hp as [(_ & _ & _ & Hg) _].
  unfold get, mret, M_ret, M_bind. now rewrite Hg.
Qed.

Lemma ready_bool self : ready self -> fst (__bool__ self) = inr true.
Proof.
  intros Hr. rewrite bool_eq. cbn [fst]. f_equal.
  destruct (negb _ && _) eqn:Hb; [reflexivity|].
  exfalso. assert (false = true) as Hc; [|discriminate Hc].
  apply (bool_ready self false); [now rewrite bool_eq, Hb | exact Hr].
Qed.

Lemma not_ready_bool self : ~ ready self -> fst (__bool__ self) = inr false.
Proof.
  intros Hr. rewrite bool_eq. cbn [fst]. f_equal.
  destruct (negb _ && _) eqn:Hb; [|reflexivity].
  exfalso. apply Hr, (bool_ready self true); [now rewrite bool_eq, Hb | reflexivity].
Qed.

(** Fewer than [n] entries remain: the anchor collapses. *)
Lemma pop_transition_terminal self s a logp :
  ready self -> queues_aligned self ->
  head (_deque_sap self) = Some (s, a, logp) ->
  len (_deque_sap self) - 1 < n self ->
  pop_transition self =
  (inr (TransitionSingle.mk s a logp (partial_return self) true s a logp), popped self).
Proof.
  intros Hrdy Hal Hhd Hlt. unfold queues_aligned in Hal.
  destruct (_deque_sap self) as [|x d] eqn:Hsap; [discriminate|].
  injection Hhd as ->.
  destruct (_deque_r self) as [|r0 dr] eqn:Hr; [discriminate|].
  unfold len in Hlt. cbn [length] in Hlt.
  rewrite (pop_transition_ready self s a logp d r0 dr);
    [|now apply ready_bool|lia|assumption|assumption].
  cbn zeta. destruct (Z.leb_spec (n self) (len d)) as [Hle|_]; [unfold len in Hle; lia|].
  unfold popped. now rewrite Hsap, Hr.
Qed.

(** At least [n] entries remain: the anchor is the entry at position
    [n - 1] of what remains. *)
Lemma pop_transition_bootstrap self s a logp s' a' logp' :
  ready self -> queues_aligned self ->
  1 <= n self ->
  head (_deque_sap self) = Some (s, a, logp) ->
  tail (_deque_sap self) !! Z.to_nat (n self - 1) = Some (s', a', logp') ->
  pop_transition self =
  (inr (TransitionSingle.mk s a logp (partial_return self) false s' a' logp'), popped self).
Proof.
  intros Hrdy Hal Hn Hhd Hanchor. unfold queues_aligned in Hal.
  destruct (_deque_sap self) as [|x d] eqn:Hsap; [discriminate|].
  injection Hhd as ->. cbn [tail] in Hanchor.
  destruct (_deque_r self) as [|r0 dr] eqn:Hr; [discriminate|].
  rewrite (pop_transition_ready self s a logp d r0 dr);
    [|now apply ready_bool|lia|assumption|assumption].
  cbn zeta. pose proof (lookup_lt_Some _ _ _ Hanchor) as Hlen.
  destruct (Z.leb_spec (n self) (len d)) as [_|Hlt]; [|unfold len in Hlt; lia].
  destruct (deque_getitem_lookup d (n self - 1)) as (y & Hy & ->);
    [unfold len; lia|].
  rewrite Hanchor in Hy. injection Hy as <-.
  unfold popped. now rewrite Hsap, Hr.
Qed.

(** *** Feeding an episode *)

Lemma extended_nil self : extended self [] = self.
Proof. destruct self. unfold extended. cbn. now rewrite !app_nil_r. Qed.

Lemma open_prefix_cons x steps :
  open_prefix (x :: steps) -> open_prefix steps /\ (steps <> [] -> step_done x = false).
Proof.
  intros Hop. split.
  - intros i y Hy Hi. apply (Hop (S i) y); [exact Hy | cbn; lia].
  - intros Hne. apply (Hop O x); [reflexivity|].
    destruct steps; [congruence | cbn; lia].
Qed.

Lemma Forall_open_prefix steps :
  Forall (fun x => step_done x = false) steps -> open_prefix steps.
Proof.
  intros Hall i x Hx _. rewrite Forall_forall in Hall.
  apply Hall, list_elem_of_lookup. eauto.
Qed.

Lemma add_all_episode steps : forall self,
  _done self = false \/ _deque_sap self = [] ->
  open_prefix steps ->
  add_all steps self = (inr tt, extended self steps).
Proof.
  induction steps as [|x steps IH]; intros self Hstart Hop.
  - cbn. now rewrite extended_nil.
  - apply open_prefix_cons in Hop as [Hop Hx].
    cbn [add_all]. erewrite bind_inr; cycle 1.
    { unfold add_step. rewrite add_eq.
      replace (_done self && negb (len (_deque_sap self) =? 0)) with false; [reflexivity|].
      destruct Hstart as [-> | ->]; [reflexivity | now rewrite andb_false_r]. }
    destruct steps as [|y steps'].
    + cbn. unfold extended. reflexivity.
    + rewrite IH; [|left; cbn; now apply Hx|exact Hop].
      unfold extended. cbn -[last]. rewrite <- !app_assoc.
      change (last (x :: y :: steps')) with (last (y :: steps')).
      destruct (proj2 (last_is_Some (y :: steps'))) as [z ->]; [discriminate|].
      reflexivity.
Qed.

(** *** The n-step return *)

Lemma sum_products_discounted g m : forall k rs acc,
  fold_left (fun acc xr => nadd acc (nmul (fst xr) (snd xr)))
    (take m (zip_py (npower g <$> (Z.of_nat <$> seq k m)) rs)) acc =
  discounted_from g (Z.of_nat k) (take m rs) acc.
Proof.
  induction m as [|m IH]; intros k rs acc; [reflexivity|].
  destruct rs as [|r rs]; [reflexivity|].
  cbn. rewrite IH. now rewrite Nat2Z.inj_succ, Z.add_1_r.
Qed.

Lemma partial_return_discounted self :
  _gammas self = npower (gamma self) <$> arange (n self) ->
  partial_return self = discounted_sum (gamma self) (n self) (_deque_r self).
Proof.
  intros Hg. unfold partial_return, discounted_sum, sum_products, arange in *.
  rewrite Hg. apply (sum_products_discounted _ _ O).
Qed.

Lemma discounted_from_take_app g m : forall k rs rs' acc,
  (m <= length rs)%nat ->
  discounted_from g k (take m (rs ++ rs')) acc = discounted_from g k (take m rs) acc.
Proof. intros k rs rs' acc Hm. now rewrite take_app_le. Qed.

(** *** What an emitting [pop] has done *)

Lemma pop_transition_inv self tr self' :
  pop_transition self = (inr tr, self') ->
  ready self /\ self' = popped self /\
  (exists r0, head (_deque_r self) = Some r0) /\
  head (_deque_sap self) =
    Some (TransitionSingle.s tr, TransitionSingle.a tr, TransitionSingle.logp tr) /\
  TransitionSingle.r tr = partial_return self /\
  (if n self <=? len (tail (_deque_sap self))
   then TransitionSingle.done tr = false /\
        deque_getitem (tail (_deque_sap self)) (n self - 1) =
          inr (TransitionSingle.s_next tr, TransitionSingle.a_next tr,
               TransitionSingle.logp_next tr)
   else TransitionSingle.done tr = true /\
        TransitionSingle.s_next tr = TransitionSingle.s tr /\
        TransitionSingle.a_next tr = TransitionSingle.a tr /\
        TransitionSingle.logp_next tr = TransitionSingle.logp tr).
Proof.
  intros Hpop.
  destruct (negb (len (_deque_sap self) =? 0) &&
            (_done self || (n self <? len (_deque_sap self)))) eqn:Hb.
  2:{ rewrite pop_transition_not_ready in Hpop; [discriminate|]. now rewrite bool_eq, Hb. }
  assert (ready self) as Hrdy.
  { apply (bool_ready self true); [now rewrite bool_eq, Hb | reflexivity]. }
  split; [exact Hrdy|].
  revert Hpop. unfold_pop. cbn. rewrite Hb. cbn.
  destruct (_deque_sap self) as [|[[s a] logp] d] eqn:Hsap; [discriminate|].
  cbn. destruct (n self <? 0); [discriminate|].
  cbn. unfold popped, partial_return. rewrite Hsap.
  destruct (_deque_r self) as [|r0 dr] eqn:Hr; [discriminate|].
  cbn. destruct (n self <=? len d).
  - change (_deque_sap (set_deque_r dr (set_deque_sap d self))) with d.
    destruct (deque_getitem d (n self - 1)) as [e|[[s' a'] l']]; [discriminate|].
    intros [= <- <-]. cbn. repeat split; eauto.
  - intros [= <- <-]. cbn. repeat split; eauto.
Qed.

Lemma popped_frame self :
  same_config self (popped self) /\ _done (popped self) = _done self /\
  _deque_sap (popped self) = tail (_deque_sap self) /\
  _deque_r (popped self) = tail (_deque_r self).
Proof. now repeat split. Qed.

Lemma pop_times_eq k : forall self trs self',
  pop_transition_times k self = (inr trs, self') ->
  pop_times k self = (inr (to_batch (_gamman self) <$> trs), self').
Proof.
  induction k as [|k IH]; intros self trs self'; cbn.
  - unfold mret, M_ret. now intros [= <- <-].
  - unfold mbind, M_bind at 1 3. rewrite pop_eq.
    destruct (pop_transition self) as [[e|tr] self1] eqn:Hp; [discriminate|].
    unfold M_bind.
    destruct (pop_transition_times k self1) as [[e|trs1] self2] eqn:Hk; [discriminate|].
    rewrite (IH _ _ _ Hk).
    apply pop_transition_frame in Hp as [(_ & _ & _ & ->) _].
    unfold mret, M_ret. now intros [= <- <-].
Qed.

(** Draining a finished episode: every [pop] succeeds, whatever is left. *)
Lemma drain_done k : forall self,
  _done self = true -> queues_aligned self -> 1 <= n self ->
  (k <= length (_deque_sap self))%nat ->
  exists trs,
    pop_transition_times k self = (inr trs, Nat.iter k popped self) /\
    length trs = k /\
    forall i tr, trs !! i = Some tr ->
      _deque_sap self !! i =
        Some (TransitionSingle.s tr, TransitionSingle.a tr, TransitionSingle.logp tr) /\
      (len (_deque_sap self) <= n self ->
       TransitionSingle.done tr = true /\
       TransitionSingle.s_next tr = TransitionSingle.s tr /\
       TransitionSingle.a_next tr = TransitionSingle.a tr /\
       TransitionSingle.logp_next tr = TransitionSingle.logp tr).
Proof.
  induction k as [|k IH]; intros self Hdone Hal Hn Hk.
  - exists []. split; [reflexivity|]. split; [reflexivity|]. intros i tr Hi. discriminate.
  - unfold queues_aligned in Hal.
    destruct (_deque_sap self) as [|[[s a] logp] d] eqn:Hsap; [cbn in Hk; lia|].
    destruct (_deque_r self) as [|r0 dr] eqn:Hr; [discriminate|].
    assert (ready self) as Hrdy.
    { split; [rewrite Hsap; cbn; lia | now left]. }
    assert (exists tr, pop_transition self = (inr tr, popped self) /\
              TransitionSingle.s tr = s /\ TransitionSingle.a tr = a /\
              TransitionSingle.logp tr = logp /\
              (len (_deque_sap self) <= n self ->
               TransitionSingle.done tr = true /\
               TransitionSingle.s_next tr = s /\ TransitionSingle.a_next tr = a /\
               TransitionSingle.logp_next tr = logp)) as (tr & Hp & Hs & Ha & Hl & Hterm).
    { destruct (Z.le_gt_cases (n self) (len d)) as [Hle|Hgt].
      - destruct (deque_getitem_lookup d (n self - 1)) as ([[s' a'] l'] & Hy & _); [lia|].
        eexists. split.
        + apply (pop_transition_bootstrap self s a logp s' a' l'); try assumption.
          * unfold queues_aligned. now rewrite Hsap, Hr.
          * now rewrite Hsap.
          * now rewrite Hsap.
        + cbn. split; [reflexivity|]. split; [reflexivity|]. split; [reflexivity|].
          intros Hlen. rewrite Hsap in Hlen. unfold len in *. cbn [length] in Hlen. lia.
      - eexists. split.
        + apply (pop_transition_terminal self s a logp); try assumption.
          * unfold queues_aligned. now rewrite Hsap, Hr.
          * now rewrite Hsap.
          * rewrite Hsap. unfold len in *. cbn [length]. lia.
        + cbn. now repeat split. }
    destruct (IH (popped self)) as (trs & Hk' & Hlen & Hall).
    { exact Hdone. }
    { unfold queues_aligned. cbn. rewrite Hsap, Hr. cbn. now injection Hal. }
    { exact Hn. }
    { cbn. rewrite Hsap. cbn in *. lia. }
    exists (tr :: trs). split; [|split].
    + cbn [pop_transition_times]. erewrite bind_inr by exact Hp.
      erewrite bind_inr by exact Hk'. rewrite Nat.iter_succ_r. reflexivity.
    + cbn. now rewrite Hlen.
    + intros [|i] tr' Hi.
      * injection Hi as <-. split; [now rewrite Hs, Ha, Hl|].
        rewrite <- Hsap, Hs, Ha, Hl. exact Hterm.
      * cbn in Hi. destruct (Hall i tr' Hi) as [Hlk Hcol].
        cbn in Hlk. rewrite Hsap in Hlk. split; [exact Hlk|].
        intros Hle. apply Hcol. cbn. rewrite Hsap. unfold len in *. cbn [length tail] in *. lia.
Qed.

Lemma tail_drop {X} (l : list X) k : tail (drop k l) = drop (S k) l.
Proof.
  replace (S k) with (k + 1)%nat by lia. rewrite <- drop_drop.
  now destruct (drop k l).
Qed.

Lemma iter_popped k : forall self,
  _deque_sap (Nat.iter k popped self) = drop k (_deque_sap self) /\
  _deque_r (Nat.iter k popped self) = drop k (_deque_r self) /\
  _done (Nat.iter k popped self) = _done self /\
  same_config self (Nat.iter k popped self).
Proof.
  induction k as [|k IH]; intros self.
  - cbn. now rewrite !drop_0.
  - rewrite Nat.iter_succ. destruct (IH self) as (Hs & Hr & Hd & Hc1 & Hc2 & Hc3 & Hc4).
    unfold same_config. cbn. rewrite Hs, Hr, !tail_drop. now repeat split.
Qed.

(** With [n >= 1] and aligned queues, [pop] either emits or refuses up
    front: it never fails half-way. *)
Lemma pop_transition_total self :
  1 <= n self -> queues_aligned self ->
  (ready self /\ exists tr, pop_transition self = (inr tr, popped self)) \/
  (~ ready self /\ pop_transition self = (inl InsufficientCacheError, self)).
Proof.
  intros Hn Hal.
  destruct (negb (len (_deque_sap self) =? 0) &&
            (_done self || (n self <? len (_deque_sap self)))) eqn:Hb.
  - assert (ready self) as Hrdy.
    { apply (bool_ready self true); [now rewrite bool_eq, Hb | reflexivity]. }
    left. split; [exact Hrdy|].
    destruct (_deque_sap self) as [|[[s a] logp] d] eqn:Hsap.
    { destruct Hrdy as [Hlen _]. rewrite Hsap in Hlen. cbn in Hlen. lia. }
    destruct (Z.le_gt_cases (n self) (len d)) as [Hle|Hgt].
    + destruct (deque_getitem_lookup d (n self - 1)) as ([[s' a'] l'] & Hy & _); [lia|].
      eexists. apply (pop_transition_bootstrap self s a logp s' a' l');
        try assumption; now rewrite Hsap.
    + eexists. apply (pop_transition_terminal self s a logp); try assumption.
      * now rewrite Hsap.
      * rewrite Hsap. unfold len in *. cbn [length]. lia.
  - right. assert (fst (__bool__ self) = inr false) as Hnb by now rewrite bool_eq, Hb.
    split; [|now apply pop_transition_not_ready].
    intros Hrdy. apply ready_bool in Hrdy. congruence.
Qed.

Lemma head_fmap_lookup {X Y} (f : X -> Y) (l : list X) x :
  head l = Some x -> head (f <$> l) = Some (f x).
Proof. destruct l; [discriminate|]. now intros [= ->]. Qed.

Lemma tail_lookup {X} (l : list X) i : tail l !! i = l !! S i.
Proof. now destruct l. Qed.

Lemma run_call_invariant c self b :
  1 <= n self -> queues_aligned self -> len (_deque_sap self) = b ->
  n (fst (run_call c self b)) = n self /\
  queues_aligned (fst (run_call c self b)) /\
  len (_deque_sap (fst (run_call c self b))) = snd (run_call c self b).
Proof.
  intros Hn Hal Hlen. unfold queues_aligned in Hal.
  destruct c as [|x| | |]; unfold run_call.
  - now repeat split.
  - unfold add_step. rewrite add_eq.
    destruct (_done self && negb (len (_deque_sap self) =? 0)); cbn [fst snd succeeded].
    + now repeat split.
    + unfold queues_aligned, len in *. cbn [n _deque_sap _deque_r].
      rewrite !length_app. cbn [length]. repeat split; lia.
  - rewrite pop_eq.
    destruct (pop_transition_total self Hn Hal) as [[[Hpos _] [tr Hp]]|[_ Hp]];
      rewrite Hp; cbn [fst snd succeeded].
    + unfold queues_aligned, popped, len in *.
      cbn [n _deque_sap _deque_r set_deque_r set_deque_sap].
      destruct (_deque_sap self); [cbn in Hpos; lia|].
      destruct (_deque_r self); [discriminate|].
      cbn [tail length] in *. repeat split; lia.
    + now repeat split.
  - now repeat split.
  - now repeat split.
Qed.

(** *** Readiness and the insufficient-cache error *)

(** C3: [__bool__] answers [True] exactly when the cache holds at least
    one entry and either the done flag is set or it holds more than [n]
    entries, without touching the cache; when it answers [False], [pop]
    raises [InsufficientCacheError] and the cache (so also the length of
    both queues) is what it was before the call. *)
Theorem nstep_ready_iff_and_pop_insufficient (self : t) :
  (exists b, __bool__ self = (inr b, self) /\
     (b = true <->
      (1 <= length (_deque_sap self))%nat /\
      (_done self = true \/ n self < len (_deque_sap self)))) /\
  (~ ready self ->
     pop self = (inl InsufficientCacheError, self) /\
     length (_deque_sap (snd (pop self))) = length (_deque_sap self) /\
     length (_deque_r (snd (pop self))) = length (_deque_r self)).
Proof.
  split.
  - eexists. split; [apply bool_eq|]. apply bool_ready. now rewrite bool_eq.
  - intros Hnr. assert (pop self = (inl InsufficientCacheError, self)) as Hp.
    { rewrite pop_eq, pop_transition_not_ready; [reflexivity|].
      now apply not_ready_bool. }
    rewrite Hp. now repeat split.
Qed.

(** *** The episode-done error *)

(** C4: [add] raises [EpisodeDoneError] exactly when the done flag is set
    and the cache is not empty, and then leaves the cache as it was; in
    every other case it appends one entry to each queue and records the
    new done flag.  In particular, once a finished episode has been
    drained by [pop] (which leaves the done flag set), [add] succeeds. *)
Theorem nstep_add_episode_done (self : t) s a r done logp :
  (fst (add s a r done logp self) = inl EpisodeDoneError <->
     _done self = true /\ _deque_sap self <> []) /\
  (forall e, fst (add s a r done logp self) = inl e ->
     e = EpisodeDoneError /\ snd (add s a r done logp self) = self) /\
  (~ (_done self = true /\ _deque_sap self <> []) ->
     add s a r done logp self =
     (inr tt, mk (n self) (gamma self) (_deque_sap self ++ [(s, a, logp)])
                 (_deque_r self ++ [r]) done (_gammas self) (_gamman self))) /\
  (_done self = true -> queues_aligned self -> 1 <= n self ->
     exists tbs drained,
       pop_times (length (_deque_sap self)) self = (inr tbs, drained) /\
       _deque_sap drained = [] /\ _deque_r drained = [] /\ _done drained = true /\
       add s a r done logp drained =
       (inr tt, mk (n self) (gamma self) [(s, a, logp)] [r] done
                   (_gammas self) (_gamman self))).
Proof.
  assert (_done self && negb (len (_deque_sap self) =? 0) = true <->
          _done self = true /\ _deque_sap self <> []) as Hcond.
  { rewrite andb_true_iff, negb_true_iff, Z.eqb_neq. unfold len.
    destruct (_deque_sap self); cbn; split; intros [? ?]; split; auto; try lia; congruence. }
  split; [|split; [|split]].
  - rewrite add_eq. etransitivity; [|apply Hcond].
    destruct (_done self && negb (len (_deque_sap self) =? 0)); cbn; split; congruence.
  - intros e. rewrite add_eq.
    destruct (_done self && negb (len (_deque_sap self) =? 0)); cbn; [|discriminate].
    intros [= <-]. now split.
  - intros Hno. rewrite add_eq.
    destruct (_done self && negb (len (_deque_sap self) =? 0)); [|reflexivity].
    exfalso. now apply Hno, Hcond.
  - intros Hdone Hal Hn.
    destruct (drain_done (length (_deque_sap self)) self Hdone Hal Hn) as (trs & Hk & _);
      [lia|].
    apply pop_times_eq in Hk. do 2 eexists. split; [exact Hk|].
    destruct (iter_popped (length (_deque_sap self)) self)
      as (Hs & Hr & Hd & Hc1 & Hc2 & Hc3 & Hc4).
    rewrite add_eq, Hs, Hr, Hd, Hc1, Hc2, Hc3, Hc4.
    unfold queues_aligned in Hal.
    rewrite drop_all, Hal, drop_all.
    repeat split; try assumption. now rewrite andb_false_r.
Qed.

(** *** The queue invariant *)

(** C10: the two queues are empty after [reset]; a successful [add]
    appends exactly one entry to each of them and a successful [pop]
    removes exactly the oldest entry of each, so both preserve the equality
    of their lengths; [__len__] and [__bool__] leave the cache alone; and
    along any sequence of calls on a cache built with [n >= 1] the common
    length is the number of steps accepted by [add] and not yet emitted by
    [pop] since the last [reset]. *)
Theorem nstep_queues_aligned :
  (forall self,
     fst (reset self) = inr tt /\
     _deque_sap (snd (reset self)) = [] /\ _deque_r (snd (reset self)) = []) /\
  (forall self s a r done logp self',
     add s a r done logp self = (inr tt, self') ->
     _deque_sap self' = _deque_sap self ++ [(s, a, logp)] /\
     _deque_r self' = _deque_r self ++ [r] /\
     (queues_aligned self -> queues_aligned self')) /\
  (forall self tb self',
     pop self = (inr tb, self') ->
     (exists x r0, _deque_sap self = x :: _deque_sap self' /\
                   _deque_r self = r0 :: _deque_r self') /\
     (queues_aligned self -> queues_aligned self')) /\
  (forall self, snd (__len__ self) = self /\ snd (__bool__ self) = self) /\
  (forall n0 gamma0 calls,
     1 <= n0 ->
     queues_aligned (fst (run calls (__init__ n0 gamma0) 0)) /\
     len (_deque_sap (fst (run calls (__init__ n0 gamma0) 0))) =
       snd (run calls (__init__ n0 gamma0) 0)).
Proof.
  assert (forall self s a r done logp self',
     add s a r done logp self = (inr tt, self') ->
     _deque_sap self' = _deque_sap self ++ [(s, a, logp)] /\
     _deque_r self' = _deque_r self ++ [r]) as Hadd.
  { intros self s a r done logp self'. rewrite add_eq.
    destruct (_done self && _); [discriminate|]. intros [= <-]. now split. }
  assert (forall self tb self',
     pop self = (inr tb, self') ->
     exists x r0, _deque_sap self = x :: _deque_sap self' /\
                  _deque_r self = r0 :: _deque_r self') as Hpop.
  { intros self tb self'. rewrite pop_eq.
    destruct (pop_transition self) as [[e|tr] self1] eqn:Hp; [discriminate|].
    intros [= _ <-].
    apply pop_transition_inv in Hp as (_ & -> & [r0 Hr] & Hs & _).
    cbn. destruct (_deque_sap self) as [|x d]; [discriminate|].
    destruct (_deque_r self) as [|r1 dr]; [discriminate|]. now exists x, r1. }
  split; [|split; [|split; [|split]]].
  - intros self. now repeat split.
  - intros self s a r done logp self' Hp.
    destruct (Hadd _ _ _ _ _ _ _ Hp) as [Hs Hr]. repeat split; try assumption.
    unfold queues_aligned. rewrite Hs, Hr, !length_app. cbn. lia.
  - intros self tb self' Hp. split; [now apply (Hpop _ tb)|].
    destruct (Hpop _ _ _ Hp) as (x & r0 & Hs & Hr).
    unfold queues_aligned. rewrite Hs, Hr. cbn. lia.
  - intros self. now split.
  - intros n0 gamma0 calls Hn0.
    assert (forall cs self b,
              n self = n0 -> queues_aligned self -> len (_deque_sap self) = b ->
              queues_aligned (fst (run cs self b)) /\
              len (_deque_sap (fst (run cs self b))) = snd (run cs self b)) as Hrun.
    { induction cs as [|c cs IH]; intros self b Hn Hal Hlen; [now split|].
      cbn [run].
      destruct (run_call_invariant c self b) as (Hn1 & Hal1 & Hlen1);
        [lia|assumption|assumption|].
      destruct (run_call c self b) as [self1 b1].
      apply IH; [now rewrite <- Hn|assumption|assumption]. }
    apply Hrun; reflexivity.
Qed.

(** *** Popping with a full look-ahead window *)

(** The cache right after [reset]. *)
Lemma reset_eq self :
  reset self =
  (inr tt, mk (n self) (gamma self) [] [] false
             (npower (gamma self) <$> arange (n self)) (npower (gamma self) (n self))).
Proof. reflexivity. Qed.

(** C1: after [reset] and [n + 1] calls of [add] with non-terminal steps,
    [len] is [n + 1], the cache is ready, and [pop] returns the transition
    of the first step, with [Rn] the discounted sum of the first [n]
    rewards weighted by the powers of [gamma] computed at [reset],
    bootstrapping from the step of the last [add], non-terminal (so that
    [In] is the [gamma ** n] computed at [reset]).  Nothing is assumed of
    [gamma]. *)
Theorem nstep_pop_full_window (self0 : t) (steps : list step) (x0 xn : step) :
  1 <= n self0 ->
  len steps = n self0 + 1 ->
  Forall (fun x => step_done x = false) steps ->
  head steps = Some x0 ->
  last steps = Some xn ->
  exists self1 self2,
    (reset;; add_all steps) self0 = (inr tt, self1) /\
    __len__ self1 = (inr (n self0 + 1), self1) /\
    __bool__ self1 = (inr true, self1) /\
    _gammas self1 = npower (gamma self0) <$> arange (n self0) /\
    pop_transition self1 =
      (inr (TransitionSingle.mk (step_s x0) (step_a x0) (step_logp x0)
              (discounted_sum (gamma self0) (n self0) (step_r <$> steps))
              false (step_s xn) (step_a xn) (step_logp xn)), self2) /\
    pop self1 =
      (inr (TransitionBatch.mk [step_s x0] [step_a x0] [step_logp x0]
              [discounted_sum (gamma self0) (n self0) (step_r <$> steps)]
              [npower (gamma self0) (n self0)]
              [step_s xn] [step_a xn] [step_logp xn]), self2).
Proof.
  intros Hn Hlen Hall Hhd Hlast.
  set (fresh := mk (n self0) (gamma self0) [] [] false
                   (npower (gamma self0) <$> arange (n self0))
                   (npower (gamma self0) (n self0))).
  set (self1 := extended fresh steps).
  assert (_deque_sap self1 = sap_of <$> steps) as Hsap by reflexivity.
  assert (_deque_r self1 = step_r <$> steps) as Hr by reflexivity.
  assert (_done self1 = false) as Hdone.
  { unfold self1, extended. cbn [_done]. rewrite Hlast. cbn.
    rewrite Forall_forall in Hall. apply Hall.
    rewrite last_lookup in Hlast. apply list_elem_of_lookup. eauto. }
  assert (length steps = S (S (Z.to_nat (n self0 - 1)))) as Hlength
    by (unfold len in Hlen; lia).
  assert (ready self1) as Hrdy.
  { split; rewrite Hsap, ?length_fmap; [lia|]. right. unfold len.
    rewrite length_fmap. cbn. unfold len in Hlen. lia. }
  assert (pop_transition self1 =
          (inr (TransitionSingle.mk (step_s x0) (step_a x0) (step_logp x0)
                  (discounted_sum (gamma self0) (n self0) (step_r <$> steps))
                  false (step_s xn) (step_a xn) (step_logp xn)), popped self1)) as Hpop.
  { rewrite (pop_transition_bootstrap self1 (step_s x0) (step_a x0) (step_logp x0)
               (step_s xn) (step_a xn) (step_logp xn)).
    - rewrite partial_return_discounted by reflexivity. now rewrite Hr.
    - exact Hrdy.
    - unfold queues_aligned. now rewrite Hsap, Hr, !length_fmap.
    - exact Hn.
    - rewrite Hsap. now apply (head_fmap_lookup sap_of).
    - rewrite Hsap, tail_lookup, list_lookup_fmap.
      rewrite last_lookup, Hlength in Hlast. cbn [pred] in Hlast.
      change (n self1) with (n self0). now rewrite Hlast. }
  exists self1, (popped self1). repeat split.
  - erewrite bind_inr by apply reset_eq.
    apply add_all_episode; [now left | now apply Forall_open_prefix].
  - rewrite len_eq, Hsap. unfold len in *. now rewrite length_fmap, Hlen.
  - pose proof (ready_bool self1 Hrdy) as Hb.
    destruct (__bool__ self1) as [res self'] eqn:Hbool. cbn [fst] in Hb. subst res.
    rewrite bool_eq in Hbool. now injection Hbool as _ <-.
  - exact Hpop.
  - rewrite pop_eq, Hpop. reflexivity.
Qed.

(** *** Popping near the end of an episode *)

(** C2: whenever [pop] emits a transition and fewer than [n] entries
    remain once the oldest entry is removed, the transition is terminal,
    its anchor is the popped step itself and its [In] is zero whatever
    [gamma] is; such a [pop] does emit, given aligned queues and a ready
    cache.  An episode of [L <= n] steps that ends with [done=True] is
    drained by [L] calls of [pop], each of which emits such a transition,
    in the order of the steps. *)
Theorem nstep_pop_short_window_terminal :
  (forall self tr self',
     pop_transition self = (inr tr, self') ->
     len (_deque_sap self') < n self ->
     head (_deque_sap self) =
       Some (TransitionSingle.s tr, TransitionSingle.a tr, TransitionSingle.logp tr) /\
     TransitionSingle.done tr = true /\
     TransitionSingle.s_next tr = TransitionSingle.s tr /\
     TransitionSingle.a_next tr = TransitionSingle.a tr /\
     TransitionSingle.logp_next tr = TransitionSingle.logp tr /\
     pop self =
       (inr (TransitionBatch.mk
               [TransitionSingle.s tr] [TransitionSingle.a tr] [TransitionSingle.logp tr]
               [TransitionSingle.r tr] [nzero]
               [TransitionSingle.s tr] [TransitionSingle.a tr] [TransitionSingle.logp tr]),
        self')) /\
  (forall self,
     ready self -> queues_aligned self ->
     len (_deque_sap self) - 1 < n self ->
     exists tr, pop_transition self = (inr tr, popped self) /\
                len (_deque_sap (popped self)) < n self) /\
  (forall self0 steps k,
     1 <= len steps <= n self0 ->
     open_prefix steps ->
     step_done <$> last steps = Some true ->
     (k <= length steps)%nat ->
     exists trs self',
       (reset;; add_all steps;; pop_transition_times k) self0 = (inr trs, self') /\
       (reset;; add_all steps;; pop_times k) self0 =
         (inr (to_batch (npower (gamma self0) (n self0)) <$> trs), self') /\
       length trs = k /\
       forall i tr, trs !! i = Some tr ->
         sap_of <$> steps !! i =
           Some (TransitionSingle.s tr, TransitionSingle.a tr, TransitionSingle.logp tr) /\
         TransitionSingle.done tr = true /\
         TransitionSingle.s_next tr = TransitionSingle.s tr /\
         TransitionSingle.a_next tr = TransitionSingle.a tr /\
         TransitionSingle.logp_next tr = TransitionSingle.logp tr /\
         TransitionBatch.In (to_batch (npower (gamma self0) (n self0)) tr) = [nzero]).
Proof.
  split; [|split].
  - intros self tr self' Hp Hlt.
    pose proof (pop_transition_inv _ _ _ Hp) as (_ & -> & _ & Hhd & _ & Hcase).
    change (_deque_sap (popped self)) with (tail (_deque_sap self)) in Hlt.
    destruct (Z.leb_spec (n self) (len (tail (_deque_sap self)))) as [Hle|_]; [lia|].
    destruct Hcase as (Hd & Hs & Ha & Hl).
    repeat split; try assumption.
    rewrite pop_eq, Hp. unfold to_batch. now rewrite Hd, Hs, Ha, Hl.
  - intros self Hrdy Hal Hlt.
    destruct (_deque_sap self) as [|[[s a] logp] d] eqn:Hsap.
    { destruct Hrdy as [Hpos _]. rewrite Hsap in Hpos. cbn in Hpos. lia. }
    eexists. split.
    + apply (pop_transition_terminal self s a logp); try assumption; now rewrite Hsap.
    + cbn. rewrite Hsap. unfold len in *. cbn [length tail] in *. lia.
  - intros self0 steps k [Hpos Hle] Hop Hlast Hk.
    set (fresh := mk (n self0) (gamma self0) [] [] false
                     (npower (gamma self0) <$> arange (n self0))
                     (npower (gamma self0) (n self0))).
    set (self1 := extended fresh steps).
    assert ((reset;; add_all steps) self0 = (inr tt, self1)) as Hfeed.
    { erewrite bind_inr by apply reset_eq. apply add_all_episode; [now left | exact Hop]. }
    assert (_deque_sap self1 = sap_of <$> steps) as Hsap by reflexivity.
    destruct (drain_done k self1) as (trs & Hk' & Hlen & Hall).
    { unfold self1, extended. cbn [_done].
      destruct (last steps) as [x|]; [|discriminate]. cbn in *. congruence. }
    { unfold queues_aligned. cbn. now rewrite !length_fmap. }
    { change (n self1) with (n self0). lia. }
    { now rewrite Hsap, length_fmap. }
    exists trs, (Nat.iter k popped self1). split; [|split; [|split]].
    + unfold mbind, M_bind in Hfeed |- *.
      destruct (reset self0) as [[e|[]] selfr]; [discriminate|].
      destruct (add_all steps selfr) as [[e|[]] selfa]; [discriminate|].
      injection Hfeed as ->. exact Hk'.
    + apply pop_times_eq in Hk'. change (_gamman self1) with (npower (gamma self0) (n self0)) in Hk'.
      unfold mbind, M_bind in Hfeed |- *.
      destruct (reset self0) as [[e|[]] selfr]; [discriminate|].
      destruct (add_all steps selfr) as [[e|[]] selfa]; [discriminate|].
      injection Hfeed as ->. exact Hk'.
    + exact Hlen.
    + intros i tr Hi. destruct (Hall i tr Hi) as [Hlk Hcol].
      rewrite Hsap, list_lookup_fmap in Hlk.
      destruct Hcol as (Hd & Hs & Ha & Hl).
      { rewrite Hsap. unfold len in *. rewrite length_fmap. exact Hle. }
      repeat split; try assumption. unfold to_batch. cbn. now rewrite Hd.
Qed.

(** *** Whole episodes and streams *)

(** The n-step transition of the step at position [t] of a sequence of
    steps: the return over at most [n] rewards from [t] on, bootstrapping
    from the step [n] positions ahead when there is one. *)
Definition nstep_transition (g : num) (n0 : Z) (steps : list step) (t : nat)
    : option (TransitionSingle.t State Action num) :=
  match steps !! t with
  | None => None
  | Some x =>
      let rn := discounted_sum g n0 (step_r <$> drop t steps) in
      Some match steps !! (t + Z.to_nat n0)%nat with
           | Some y => TransitionSingle.mk (step_s x) (step_a x) (step_logp x) rn false
                         (step_s y) (step_a y) (step_logp y)
           | None => TransitionSingle.mk (step_s x) (step_a x) (step_logp x) rn true
                       (step_s x) (step_a x) (step_logp x)
           end
  end.

(** How many calls of [pop] in a row can succeed. *)
Definition poppable (self : t) : nat :=
  if _done self then length (_deque_sap self)
  else (length (_deque_sap self) - Z.to_nat (n self))%nat.

(** The cache buffers exactly the steps [ss], with the weights of [reset]. *)
Definition holds (self : t) (ss : list step) : Prop :=
  _deque_sap self = sap_of <$> ss /\
  _deque_r self = step_r <$> ss /\
  _gammas self = npower (gamma self) <$> arange (n self).

Lemma holds_aligned self ss : holds self ss -> queues_aligned self.
Proof. intros (Hs & Hr & _). unfold queues_aligned. now rewrite Hs, Hr, !length_fmap. Qed.

Lemma nstep_transition_cons g n0 x ss t :
  nstep_transition g n0 (x :: ss) (S t) = nstep_transition g n0 ss t.
Proof. reflexivity. Qed.

Lemma poppable_ready self :
  1 <= n self -> (1 <= poppable self)%nat -> ready self.
Proof.
  intros Hn Hp. unfold poppable in Hp. unfold ready, len.
  destruct (_done self); [split; [lia | now left]|].
  split; [lia | right; lia].
Qed.

Lemma poppable_popped self :
  (1 <= poppable self)%nat -> poppable (popped self) = pred (poppable self).
Proof.
  unfold poppable. cbn. destruct (_deque_sap self) as [|x d]; cbn.
  - destruct (_done self); cbn; lia.
  - destruct (_done self); cbn; lia.
Qed.

Lemma pop_transition_holds self x ss :
  1 <= n self -> holds self (x :: ss) -> ready self ->
  exists tr,
    nstep_transition (gamma self) (n self) (x :: ss) 0 = Some tr /\
    pop_transition self = (inr tr, popped self) /\
    holds (popped self) ss.
Proof.
  intros Hn Hh Hrdy. pose proof (holds_aligned _ _ Hh) as Hal.
  destruct Hh as (Hs & Hr & Hg).
  assert (holds (popped self) ss) as Hh'.
  { unfold holds. cbn. now rewrite Hs, Hr, Hg. }
  assert (partial_return self =
          discounted_sum (gamma self) (n self) (step_r <$> drop 0 (x :: ss))) as Hrn.
  { rewrite partial_return_discounted by exact Hg. now rewrite Hr. }
  unfold nstep_transition.
  change ((x :: ss) !! 0%nat) with (Some x). cbv zeta. rewrite <- Hrn.
  replace (0 + Z.to_nat (n self))%nat with (S (Z.to_nat (n self - 1))) by lia.
  change ((x :: ss) !! S (Z.to_nat (n self - 1))) with (ss !! Z.to_nat (n self - 1)).
  destruct (ss !! Z.to_nat (n self - 1)) as [y|] eqn:Hy.
  - eexists. split; [reflexivity|]. split; [|exact Hh'].
    apply pop_transition_bootstrap; try assumption.
    + now rewrite Hs.
    + rewrite Hs. cbn. now rewrite list_lookup_fmap, Hy.
  - eexists. split; [reflexivity|]. split; [|exact Hh'].
    apply pop_transition_terminal; try assumption.
    + now rewrite Hs.
    + apply lookup_ge_None in Hy. rewrite Hs. unfold len. cbn.
      rewrite length_fmap. lia.
Qed.

Lemma pop_transition_times_holds k : forall self ss,
  1 <= n self -> holds self ss -> (k <= poppable self)%nat ->
  exists trs,
    pop_transition_times k self = (inr trs, Nat.iter k popped self) /\
    length trs = k /\
    forall t, (t < k)%nat -> trs !! t = nstep_transition (gamma self) (n self) ss t.
Proof.
  induction k as [|k IH]; intros self ss Hn Hh Hk.
  - exists []. split; [reflexivity|]. split; [reflexivity|]. intros t Ht. lia.
  - assert (ready self) as Hrdy by (apply poppable_ready; [exact Hn | lia]).
    destruct ss as [|x ss].
    { destruct Hh as (Hs & _). destruct Hrdy as [Hpos _]. rewrite Hs in Hpos.
      cbn in Hpos. lia. }
    destruct (pop_transition_holds self x ss Hn Hh Hrdy) as (tr & Htr & Hp & Hh').
    destruct (IH (popped self) ss) as (trs & Hk' & Hlen & Hall).
    { exact Hn. }
    { exact Hh'. }
    { rewrite poppable_popped; lia. }
    exists (tr :: trs). split; [|split].
    + cbn [pop_transition_times]. erewrite bind_inr by exact Hp.
      erewrite bind_inr by exact Hk'. now rewrite Nat.iter_succ_r.
    + cbn. now rewrite Hlen.
    + intros [|t] Ht; [now rewrite Htr|].
      change ((tr :: trs) !! S t) with (trs !! t). rewrite nstep_transition_cons.
      apply Hall. lia.
Qed.

(** X1: after [reset] and the steps of an episode (every step but the last
    non-terminal), as many calls of [pop] succeed in a row as there are
    buffered steps if the last step was terminal, and as there are buffered
    steps beyond [n] otherwise; the transition emitted by the call number
    [t] is the n-step transition of step [t]: its return sums at most [n]
    discounted rewards from step [t] on, and it bootstraps from step
    [t + n] if the episode has one and is terminal, anchored at step [t]
    itself, if not. *)
Theorem nstep_episode_transitions (self0 : t) (steps : list step) (k : nat) :
  1 <= n self0 ->
  open_prefix steps ->
  (k <= if default false (step_done <$> last steps)
        then length steps
        else length steps - Z.to_nat (n self0))%nat ->
  exists trs self',
    (reset;; add_all steps;; pop_transition_times k) self0 = (inr trs, self') /\
    (reset;; add_all steps;; pop_times k) self0 =
      (inr (to_batch (npower (gamma self0) (n self0)) <$> trs), self') /\
    length trs = k /\
    (forall t, (t < k)%nat ->
       trs !! t = nstep_transition (gamma self0) (n self0) steps t) /\
    _deque_sap self' = sap_of <$> drop k steps.
Proof.
  intros Hn Hop Hk.
  set (fresh := mk (n self0) (gamma self0) [] [] false
                   (npower (gamma self0) <$> arange (n self0))
                   (npower (gamma self0) (n self0))).
  set (self1 := extended fresh steps).
  assert ((reset;; add_all steps) self0 = (inr tt, self1)) as Hfeed.
  { erewrite bind_inr by apply reset_eq. apply add_all_episode; [now left | exact Hop]. }
  assert (holds self1 steps) as Hh by now repeat split.
  destruct (pop_transition_times_holds k self1 steps) as (trs & Hk' & Hlen & Hall).
  { exact Hn. }
  { exact Hh. }
  { unfold poppable. change (_done self1) with (default false (step_done <$> last steps)).
    change (_deque_sap self1) with (sap_of <$> steps). now rewrite length_fmap. }
  exists trs, (Nat.iter k popped self1). split; [|split; [|split; [|split]]].
  - unfold mbind, M_bind in Hfeed |- *.
    destruct (reset self0) as [[e|[]] selfr]; [discriminate|].
    destruct (add_all steps selfr) as [[e|[]] selfa]; [discriminate|].
    injection Hfeed as ->. exact Hk'.
  - apply pop_times_eq in Hk'.
    change (_gamman self1) with (npower (gamma self0) (n self0)) in Hk'.
    unfold mbind, M_bind in Hfeed |- *.
    destruct (reset self0) as [[e|[]] selfr]; [discriminate|].
    destruct (add_all steps selfr) as [[e|[]] selfa]; [discriminate|].
    injection Hfeed as ->. exact Hk'.
  - exact Hlen.
  - exact Hall.
  - destruct (iter_popped k self1) as (-> & _). now rewrite fmap_drop.
Qed.

(** *** How many pops succeed *)

Lemma popped_aligned self :
  queues_aligned self -> queues_aligned (popped self).
Proof.
  unfold queues_aligned. cbn.
  destruct (_deque_sap self), (_deque_r self); cbn; lia.
Qed.

Lemma pops_succeed k : forall self,
  1 <= n self -> queues_aligned self -> (k <= poppable self)%nat ->
  exists trs,
    pop_transition_times k self = (inr trs, Nat.iter k popped self) /\ length trs = k.
Proof.
  induction k as [|k IH]; intros self Hn Hal Hk.
  - now exists [].
  - assert (ready self) as Hrdy by (apply poppable_ready; [exact Hn | lia]).
    destruct (pop_transition_total self Hn Hal) as [[_ [tr Hp]]|[Hnr _]]; [|contradiction].
    destruct (IH (popped self)) as (trs & Hk' & Hlen).
    { exact Hn. }
    { now apply popped_aligned. }
    { rewrite poppable_popped; lia. }
    exists (tr :: trs). split; [|cbn; now rewrite Hlen].
    cbn [pop_transition_times]. erewrite bind_inr by exact Hp.
    erewrite bind_inr by exact Hk'. now rewrite Nat.iter_succ_r.
Qed.

Lemma poppable_iter k : forall self,
  (k <= poppable self)%nat -> poppable (Nat.iter k popped self) = (poppable self - k)%nat.
Proof.
  induction k as [|k IH]; intros self Hk; [cbn; lia|].
  rewrite Nat.iter_succ_r, IH; rewrite poppable_popped; lia.
Qed.

Lemma not_poppable_not_ready self :
  1 <= n self -> poppable self = 0%nat -> ~ ready self.
Proof.
  intros Hn Hp [Hpos Hcase]. unfold poppable, len in *.
  destruct (_done self); [lia|]. destruct Hcase as [Hd|Hlt]; [discriminate|lia].
Qed.

(** X2: on a cache with [n >= 1] and aligned queues, exactly [poppable]
    calls of [pop] succeed in a row: all buffered entries if the done flag
    is set, the entries beyond the first [n] otherwise.  They remove the
    oldest entries in order, and the next call raises
    [InsufficientCacheError] and leaves what remains untouched. *)
Theorem nstep_pops_in_a_row (self : t) :
  1 <= n self -> queues_aligned self ->
  exists tbs rest,
    pop_times (poppable self) self = (inr tbs, rest) /\
    length tbs = poppable self /\
    _deque_sap rest = drop (poppable self) (_deque_sap self) /\
    _deque_r rest = drop (poppable self) (_deque_r self) /\
    length (_deque_sap rest) =
      (if _done self then 0 else Nat.min (length (_deque_sap self)) (Z.to_nat (n self)))%nat /\
    pop rest = (inl InsufficientCacheError, rest).
Proof.
  intros Hn Hal.
  destruct (pops_succeed (poppable self) self Hn Hal) as (trs & Hk & Hlen); [lia|].
  apply pop_times_eq in Hk.
  destruct (iter_popped (poppable self) self) as (Hs & Hr & Hd & Hn' & _).
  do 2 eexists. split; [exact Hk|]. split; [now rewrite length_fmap|].
  split; [exact Hs|]. split; [exact Hr|]. split.
  - rewrite Hs, length_drop. unfold poppable. destruct (_done self); lia.
  - rewrite pop_eq, pop_transition_not_ready; [reflexivity|].
    apply not_ready_bool, not_poppable_not_ready; [now rewrite Hn'|].
    rewrite poppable_iter; lia.
Qed.

(** *** What the calls never change *)

(** The configuration a cache is built with. *)
Definition configured (n0 : Z) (g : num) (self : t) : Prop :=
  n self = n0 /\ gamma self = g /\
  _gammas self = npower g <$> arange n0 /\ _gamman self = npower g n0.

Lemma run_call_configured n0 g c self b :
  configured n0 g self -> configured n0 g (fst (run_call c self b)).
Proof.
  intros (Hn & Hg & Hgs & Hgn). destruct c as [|x| | |]; unfold run_call.
  - cbn. unfold configured. cbn. now rewrite Hn, Hg.
  - unfold add_step. rewrite add_eq. destruct (_done self && _); now repeat split.
  - destruct (pop self) as [res self'] eqn:Hp. cbn [fst].
    rewrite pop_eq in Hp.
    destruct (pop_transition self) as [[e|tr] self1] eqn:Hpt; injection Hp as _ <-;
      apply pop_transition_frame in Hpt as [(H1 & H2 & H3 & H4) _];
      unfold configured; now rewrite H1, H2, H3, H4.
  - now repeat split.
  - now repeat split.
Qed.

(** X3: whatever the calls and their outcomes, and whatever [n], a cache
    keeps the configuration it was built with: [n], [gamma], the weights
    [gamma^0 .. gamma^(n-1)] and [gamma^n]; and [pop], whether it returns
    or raises, never changes the done flag. *)
Theorem nstep_configuration_is_kept (n0 : Z) (g : num) (calls : list call) (b : Z) :
  configured n0 g (fst (run calls (__init__ n0 g) b)) /\
  (forall self, _done (snd (pop self)) = _done self).
Proof.
  split.
  - assert (forall cs self b0, configured n0 g self -> configured n0 g (fst (run cs self b0)))
      as Hrun.
    { induction cs as [|c cs IH]; intros self b0 Hc; [exact Hc|].
      cbn [run]. pose proof (run_call_configured n0 g c self b0 Hc) as Hc'.
      destruct (run_call c self b0) as [self1 b1]. now apply IH. }
    apply Hrun. now repeat split.
  - intros self. rewrite pop_eq.
    destruct (pop_transition self) as [[e|tr] self1] eqn:Hpt;
      now apply pop_transition_frame in Hpt as [_ Hd].
Qed.

(** *** The exceptions of a well-configured cache *)

Lemma run_call_state c self b b' : fst (run_call c self b) = fst (run_call c self b').
Proof.
  destruct c as [|x| | |]; unfold run_call; try reflexivity.
  - now destruct (add_step x self).
  - now destruct (pop self).
Qed.

(** What a call raises, if anything. *)
Definition raised_by (c : call) (self : t) : option exn :=
  match c with
  | CallAdd x => match fst (add_step x self) with inl e => Some e | inr _ => None end
  | CallPop => match fst (pop self) with inl e => Some e | inr _ => None end
  | CallReset | CallLen | CallBool => None
  end.

(** Along a sequence of calls, every call that raises raises one of the two
    exceptions of the module and leaves the cache as it found it. *)
Fixpoint failures_are_clean (calls : list call) (self : t) : Prop :=
  match calls with
  | [] => True
  | c :: calls' =>
      (forall e, raised_by c self = Some e ->
         (e = EpisodeDoneError \/ e = InsufficientCacheError) /\
         fst (run_call c self 0) = self) /\
      failures_are_clean calls' (fst (run_call c self 0))
  end.


(** *** Outside the documented range of [n] *)

(** X5: with a negative [n] every non-empty cache counts as ready, and [pop]
    then raises the [ValueError] of [islice] after the oldest entry has
    left the state-action queue and before the reward queue is touched: the
    entry is lost and the two queues no longer have the same length. *)
Theorem nstep_negative_n_pop (self : t) x d :
  n self < 0 ->
  _deque_sap self = x :: d ->
  __bool__ self = (inr true, self) /\
  pop self = (inl ValueError, set_deque_sap d self) /\
  (queues_aligned self -> length (_deque_r (snd (pop self))) =
                          S (length (_deque_sap (snd (pop self))))).
Proof.
  intros Hn Hsap.
  assert (negb (len (_deque_sap self) =? 0) &&
          (_done self || (n self <? len (_deque_sap self))) = true) as Hb.
  { rewrite Hsap. unfold len. cbn [length].
    apply andb_true_iff. split.
    - apply negb_true_iff, Z.eqb_neq. lia.
    - apply orb_true_iff. right. apply Z.ltb_lt. lia. }
  assert (pop self = (inl ValueError, set_deque_sap d self)) as Hpop.
  { rewrite pop_eq. unfold_pop. cbn. rewrite Hb. cbn. rewrite Hsap.
    destruct x as [[s a] logp]. cbn.
    destruct (Z.ltb_spec (n self) 0) as [_|?]; [reflexivity|lia]. }
  split; [now rewrite bool_eq, Hb|]. split; [exact Hpop|].
  intros Hal. rewrite Hpop. unfold queues_aligned in Hal. cbn.
  rewrite <- Hal, Hsap. reflexivity.
Qed.

(** X6: with [n = 0] the return of every transition is the [0] that [sum]
    starts from, and the anchor is read at index [-1]: the newest buffered
    entry, never a terminal anchor; when the popped entry was the only one,
    that read raises [IndexError] after both queues have given up the
    entry. *)
Theorem nstep_zero_n_pop (self : t) s a logp d :
  n self = 0 ->
  queues_aligned self ->
  _deque_sap self = (s, a, logp) :: d ->
  match last d with
  | None => pop_transition self = (inl IndexError, popped self)
  | Some (s', a', logp') =>
      pop_transition self =
      (inr (TransitionSingle.mk s a logp nzero false s' a' logp'), popped self)
  end.
Proof.
  intros Hn Hal Hsap. unfold queues_aligned in Hal. rewrite Hsap in Hal.
  destruct (_deque_r self) as [|r0 dr] eqn:Hr; [discriminate|].
  rewrite (pop_transition_ready self s a logp d r0 dr); [|
    rewrite bool_eq, Hsap, Hn; unfold len; cbn [fst length]; f_equal;
    apply andb_true_iff; split;
    [apply negb_true_iff, Z.eqb_neq; lia | apply orb_true_iff; right; apply Z.ltb_lt; lia]
    | lia | exact Hsap | exact Hr].
  cbn zeta. rewrite Hn.
  destruct (Z.leb_spec 0 (len d)) as [_|Hneg]; [|unfold len in Hneg; lia].
  assert (popped self = set_deque_r dr (set_deque_sap d self)) as ->.
  { unfold popped. now rewrite Hsap, Hr. }
  assert (partial_return self = nzero) as ->.
  { unfold partial_return. now rewrite Hn. }
  unfold deque_getitem. change (0 - 1 <? 0) with true. cbn match.
  rewrite last_lookup.
  destruct d as [|y d'].
  - reflexivity.
  - replace (0 - 1 + len (y :: d')) with (Z.of_nat (length d')) by (unfold len; cbn [length]; lia).
    destruct (Z.ltb_spec (Z.of_nat (length d')) 0) as [?|_]; [lia|].
    destruct (Z.leb_spec (len (y :: d')) (Z.of_nat (length d'))) as [Hc|_];
      [unfold len in Hc; cbn [length] in Hc; lia|].
    cbn [orb]. rewrite Nat2Z.id. cbn [length pred].
    destruct ((y :: d') !! length d') as [[[s' a'] l']|] eqn:Hy; [reflexivity|].
    apply lookup_ge_None in Hy. cbn in Hy. lia.
Qed.

(** *** Adding and readiness *)

(** X7: [add] raises only on a cache that is ready to be popped; an [add]
    that succeeds never makes a ready cache unready, and it always leaves
    the cache ready when the step is terminal. *)
Theorem nstep_add_and_readiness (self : t) s a r done logp :
  (forall e, fst (add s a r done logp self) = inl e -> ready self) /\
  (fst (add s a r done logp self) = inr tt ->
     (ready self -> ready (snd (add s a r done logp self))) /\
     (done = true -> ready (snd (add s a r done logp self)))).
Proof.
  rewrite add_eq.
  destruct (_done self && negb (len (_deque_sap self) =? 0)) eqn:Hb; cbn [fst snd].
  - split; [|discriminate]. intros e _.
    apply andb_true_iff in Hb as [Hd Hne].
    apply negb_true_iff, Z.eqb_neq in Hne. unfold len in Hne.
    split; [lia | now left].
  - split; [discriminate|]. intros _. unfold ready, len. cbn.
    rewrite length_app. cbn. split.
    + intros [Hpos [Hd|Hlt]].
      * rewrite Hd in Hb. cbn in Hb. apply negb_false_iff, Z.eqb_eq in Hb.
        unfold len in Hb. lia.
      * split; [lia | right; lia].
    + intros ->. split; [lia | now left].
Qed.

(** X10: [reset] clears the episode-done condition as draining does:
    whatever the cache held, after [reset] a [pop] raises
    [InsufficientCacheError] and an [add] succeeds and leaves exactly the
    new step in the two queues. *)
Theorem nstep_reset_recovers (self : t) s a r done logp :
  fst ((reset;; pop) self) = inl InsufficientCacheError /\
  exists self',
    (reset;; add s a r done logp) self = (inr tt, self') /\
    _deque_sap self' = [(s, a, logp)] /\ _deque_r self' = [r] /\ _done self' = done /\
    configured (n self) (gamma self) self'.
Proof.
  split.
  - erewrite bind_inr by apply reset_eq.
    rewrite pop_eq, pop_transition_not_ready; reflexivity.
  - eexists. split.
    + erewrite bind_inr by apply reset_eq. rewrite add_eq. reflexivity.
    + now repeat split.
Qed.

End Cache.
Arguments t : clear implicits.
Arguments step : clear implicits.
Arguments call : clear implicits.

(** *** Runs on concrete inputs

    States and actions are numbered, rewards are rationals. *)

Definition three_steps : list (step nat nat Q) :=
  [ mk_step 10%nat 0%nat 1%Q false 0%Q;
    mk_step 11%nat 1%nat 2%Q false 0%Q;
    mk_step 12%nat 0%nat 4%Q false 0%Q ].

(** The same steps as an episode that ends with the third one. *)
Definition three_steps_done : list (step nat nat Q) :=
  [ mk_step 10%nat 0%nat 1%Q false 0%Q;
    mk_step 11%nat 1%nat 2%Q false 0%Q;
    mk_step 12%nat 0%nat 4%Q true 0%Q ].

(** The scenario of the spec: [n = 1], [gamma = 0.9], three steps with
    reward [1], the last one with [done=True]; three pops return [1, 1, 1],
    the first two bootstrap with [In = 0.9], the last one is terminal with
    [In = 0]. *)
Example scenario_n1 :
  fst ((add_all [ mk_step 10%nat 0%nat 1%Q false 0%Q;
                  mk_step 11%nat 1%nat 1%Q false 0%Q;
                  mk_step 12%nat 0%nat 1%Q true 0%Q ];; pop_times 3)
         (__init__ 1 (9 # 10)%Q)) =
  inr [ TransitionBatch.mk [10%nat] [0%nat] [0%Q] [1%Q] [(9 # 10)%Q] [11%nat] [1%nat] [0%Q];
        TransitionBatch.mk [11%nat] [1%nat] [0%Q] [1%Q] [(9 # 10)%Q] [12%nat] [0%nat] [0%Q];
        TransitionBatch.mk [12%nat] [0%nat] [0%Q] [1%Q] [0%Q] [12%nat] [0%nat] [0%Q] ].
Proof. reflexivity. Qed.

(** A cache that is not ready refuses to pop; a finished episode refuses new
    steps until it is drained. *)
Example pop_too_early :
  fst ((add_all (take 2 three_steps);; pop) (__init__ 2 (9 # 10)%Q)) = inl InsufficientCacheError.
Proof. reflexivity. Qed.

Example add_after_done :
  fst ((add_all three_steps_done;; add 13%nat 0%nat 1%Q false 0%Q) (__init__ 2 (9 # 10)%Q))
  = inl EpisodeDoneError.
Proof. reflexivity. Qed.

(** Outside the documented range of [n] a ready cache can fail half-way:
    with [n = -1] the [islice] call raises after the first queue has been
    popped, and the queues are no longer aligned. *)
Example negative_n_breaks_alignment :
  let after := (add 10%nat 0%nat 1%Q true 0%Q;; pop) (__init__ (-1) (9 # 10)%Q) in
  fst after = inl ValueError /\
  length (_deque_sap (snd after)) = 0%nat /\ length (_deque_r (snd after)) = 1%nat.
Proof. now repeat split. Qed.

Lemma nstep_pop_full_window_witness :
  fst (pop (snd ((reset;; add_all three_steps) (__init__ 2 (9 # 10)%Q)))) =
  inr (TransitionBatch.mk [10%nat] [0%nat] [0%Q]
         [discounted_sum (9 # 10)%Q 2 [1%Q; 2%Q; 4%Q]] [npower (9 # 10)%Q 2]
         [12%nat] [0%nat] [0%Q]).
Proof.
  destruct (nstep_pop_full_window (__init__ 2 (9 # 10)%Q) three_steps
              (mk_step 10%nat 0%nat 1%Q false 0%Q) (mk_step 12%nat 0%nat 4%Q false 0%Q))
    as (self1 & self2 & Hfeed & _ & _ & _ & _ & Hpop).
  - by_computation.
  - by_computation.
  - repeat constructor.
  - by_computation.
  - by_computation.
  - rewrite Hfeed. cbn [snd]. rewrite Hpop. reflexivity.
Defined.

Lemma nstep_pop_short_window_terminal_witness :
  (exists tr,
     pop_transition (snd (add_all three_steps_done (__init__ 3 (9 # 10)%Q))) =
       (inr tr, popped (snd (add_all three_steps_done (__init__ 3 (9 # 10)%Q)))) /\
     TransitionSingle.done tr = true) /\
  (exists trs self',
     (reset;; add_all three_steps_done;; pop_times 3) (__init__ 3 (9 # 10)%Q) =
       (inr (to_batch (npower (9 # 10)%Q 3) <$> trs), self') /\
     length trs = 3%nat).
Proof.
  split.
  - destruct (proj1 (proj2 (@nstep_pop_short_window_terminal nat nat Q _))
                (snd (add_all three_steps_done (__init__ 3 (9 # 10)%Q)))) as (tr & Hp & Hlt).
    + split; [by_computation | left; by_computation].
    + by_computation.
    + by_computation.
    + exists tr. split; [exact Hp|].
      exact (proj1 (proj2 (proj1 (@nstep_pop_short_window_terminal nat nat Q _) _ _ _ Hp Hlt))).
  - destruct (proj2 (proj2 (@nstep_pop_short_window_terminal nat nat Q _))
                (__init__ 3 (9 # 10)%Q) three_steps_done 3%nat)
      as (trs & self' & _ & Hb & Hlen & _).
    + by_computation.
    + intros [|[|[|i]]] x Hx Hi; vm_compute in Hx, Hi;
        first [ injection Hx as <-; reflexivity | lia | discriminate Hx ].
    + by_computation.
    + by_computation.
    + exists trs, self'. split; [exact Hb | exact Hlen].
Defined.

Lemma nstep_ready_iff_and_pop_insufficient_witness :
  pop (snd (add_all (take 2 three_steps) (__init__ 2 (9 # 10)%Q))) =
  (inl InsufficientCacheError, snd (add_all (take 2 three_steps) (__init__ 2 (9 # 10)%Q))).
Proof.
  apply (nstep_ready_iff_and_pop_insufficient
           (snd (add_all (take 2 three_steps) (__init__ 2 (9 # 10)%Q)))).
  intros [_ [Hdone | Hlen]]; [vm_compute in Hdone | vm_compute in Hlen]; discriminate.
Defined.

Lemma nstep_add_episode_done_witness :
  fst (add 13%nat 0%nat 1%Q false 0%Q (snd (add_all three_steps_done (__init__ 2 (9 # 10)%Q))))
    = inl EpisodeDoneError /\
  exists tbs drained,
    pop_times 3 (snd (add_all three_steps_done (__init__ 2 (9 # 10)%Q))) = (inr tbs, drained) /\
    fst (add 13%nat 0%nat 1%Q false 0%Q drained) = inr tt.
Proof.
  destruct (nstep_add_episode_done (snd (add_all three_steps_done (__init__ 2 (9 # 10)%Q)))
              13%nat 0%nat 1%Q false 0%Q) as (Hiff & _ & _ & Hdrain).
  split.
  - apply Hiff. split; [by_computation | vm_compute; discriminate].
  - destruct Hdrain as (tbs & drained & Hpops & _ & _ & _ & Hadd).
    + by_computation.
    + by_computation.
    + by_computation.
    + exists tbs, drained. split; [exact Hpops | rewrite Hadd; reflexivity].
Defined.

Lemma nstep_queues_aligned_witness :
  let calls := [CallAdd (mk_step 10%nat 0%nat 1%Q false 0%Q); CallPop; CallBool;
                CallAdd (mk_step 11%nat 1%nat 2%Q true 0%Q);
                CallAdd (mk_step 12%nat 0%nat 4%Q false 0%Q); CallLen; CallPop; CallPop] in
  queues_aligned (fst (run calls (__init__ 1 (9 # 10)%Q) 0)) /\
  len (_deque_sap (fst (run calls (__init__ 1 (9 # 10)%Q) 0))) = 0.
Proof.
  intros calls.
  destruct (proj2 (proj2 (proj2 (proj2 (@nstep_queues_aligned nat nat Q _))))
              1 (9 # 10)%Q calls) as [Hal Hlen]; [lia|].
  split; [exact Hal|]. rewrite Hlen. by_computation.
Defined.

Lemma nstep_episode_transitions_witness :
  exists trs self',
    (reset;; add_all three_steps_done;; pop_transition_times 3) (__init__ 2 (9 # 10)%Q)
      = (inr trs, self') /\
    trs !! 0%nat =
      Some (TransitionSingle.mk 10%nat 0%nat 0%Q (discounted_sum (9 # 10)%Q 2 [1%Q; 2%Q; 4%Q])
              false 12%nat 0%nat 0%Q) /\
    trs !! 2%nat =
      Some (TransitionSingle.mk 12%nat 0%nat 0%Q (discounted_sum (9 # 10)%Q 2 [4%Q])
              true 12%nat 0%nat 0%Q) /\
    _deque_sap self' = [].
Proof.
  destruct (nstep_episode_transitions (__init__ 2 (9 # 10)%Q) three_steps_done 3%nat)
    as (trs & self' & Hpops & _ & _ & Hall & Hrest).
  - by_computation.
  - intros [|[|[|i]]] x Hx Hi; vm_compute in Hx, Hi;
      first [ injection Hx as <-; reflexivity | lia | discriminate Hx ].
  - vm_compute. lia.
  - exists trs, self'. split; [exact Hpops|].
    split; [rewrite (Hall 0%nat) by lia; by_computation|].
    split; [rewrite (Hall 2%nat) by lia; by_computation|].
    rewrite Hrest. reflexivity.
Defined.

Lemma nstep_pops_in_a_row_witness :
  let cache := snd (add_all three_steps (__init__ 2 (9 # 10)%Q)) in
  poppable cache = 1%nat /\
  exists tbs rest,
    pop_times (poppable cache) cache = (inr tbs, rest) /\
    length (_deque_sap rest) = 2%nat /\
    pop rest = (inl InsufficientCacheError, rest).
Proof.
  intros cache. split; [by_computation|].
  destruct (nstep_pops_in_a_row cache) as (tbs & rest & Hk & _ & _ & _ & Hlen & Hpop).
  - by_computation.
  - by_computation.
  - exists tbs, rest. split; [exact Hk|]. split; [|exact Hpop].
    rewrite Hlen. by_computation.
Defined.


Lemma nstep_negative_n_pop_witness :
  let cache := snd (add 10%nat 0%nat 1%Q false 0%Q (__init__ (-1) (9 # 10)%Q)) in
  pop cache = (inl ValueError, set_deque_sap [] cache).
Proof.
  intros cache.
  apply (nstep_negative_n_pop cache (10%nat, 0%nat, 0%Q) []); by_computation.
Defined.

Lemma nstep_zero_n_pop_witness :
  let cache := snd (add 10%nat 0%nat 1%Q true 0%Q (__init__ 0 (9 # 10)%Q)) in
  pop_transition cache = (inl IndexError, popped cache).
Proof.
  intros cache.
  exact (nstep_zero_n_pop cache 10%nat 0%nat 0%Q [] eq_refl eq_refl eq_refl).
Defined.

Lemma nstep_add_and_readiness_witness :
  ready (snd (add_all three_steps_done (__init__ 2 (9 # 10)%Q))).
Proof.
  apply (proj1 (nstep_add_and_readiness
                  (snd (add_all three_steps_done (__init__ 2 (9 # 10)%Q)))
                  13%nat 0%nat 1%Q false 0%Q) EpisodeDoneError).
  by_computation.
Defined.

End NStepCache.


(** ** [SimpleTD] *)

(** Arrays of the numeric backend: all the code needs is [x + y] and
    [x * y] on them. *)
Class Elementwise (Arr : Type) := {
  eadd : Arr -> Arr -> Arr;
  emul : Arr -> Arr -> Arr
}.

(** Rows of a batch held in a list, combined row by row. *)
#[export] Instance list_Elementwise {num : Type} `{!Num num} : Elementwise (list num) := {
  eadd := zip_with nadd;
  emul := zip_with nmul
}.

Module SimpleTD.
Section TD.
Context {States Actions Arr Params FState Rng Scalar Grads Updates OptState : Type}.
Context `{!Elementwise Arr}.

(** A state value function [V]: [V.function] is the pure forward pass
    [(params, state, rng, S, is_training) -> (output, new_state)]. *)
Record V := mk_V {
  function : Params -> FState -> Rng -> States -> bool -> Arr * FState
}.

(** ["a ValueTransform is just a glorified pair of functions"] *)
Definition ValueTransform : Type := (Arr -> Arr) * (Arr -> Arr).
Definition transform_func (vt : ValueTransform) : Arr -> Arr := fst vt.
Definition inverse_func (vt : ValueTransform) : Arr -> Arr := snd vt.

(** The parts of the updater that are external to the TD logic: the loss
    function, the optimizer (a gradient transform
    [(gradients, optimizer_state) -> (updates, new_optimizer_state)] whose
    updates are then applied to the parameters), automatic
    differentiation, and the optional penalty of a policy regularizer,
    which is computed from the policy's distribution at [S]. *)
Record t := mk {
  v : V;
  v_targ : V;
  value_transform : ValueTransform;
  loss_function : Arr -> Arr -> Scalar;
  policy_regularizer : option (States -> Scalar);
  scalar_add : Scalar -> Scalar -> Scalar;
  grad : (Params -> Scalar) -> Params -> Grads;
  optimizer : Grads -> OptState -> Updates * OptState;
  apply_updates : Params -> Updates -> Params
}.

(** Modelled from the spec: the constructor of the base class
    [BaseTDLearningV] is in [coax/td_learning/_base.py], which is not part
    of the sources at hand.  "When no transform is supplied, [f] and
    [f^-1] are both the identity." *)
Definition init_value_transform (value_transform : option ValueTransform) : ValueTransform :=
  default (id, id) value_transform.

(** [transition_batch[3:6]]: the fields at positions 3, 4 and 5 of the
    named tuple. *)
Definition slice_3_6 (tb : TransitionBatch.t States Actions Arr) : Arr * Arr * States :=
  (TransitionBatch.Rn tb, TransitionBatch.In tb, TransitionBatch.S_next tb).

(** [d[key]] on a dict. *)
Definition getitem {X} (d : gmap string X) (key : string) : exn + X :=
  match d !! key with
  | Some x => inr x
  | None => inl (KeyError key)
  end.

(** [target_func]: lines 89-94. *)
Definition target_func (self : t)
    (target_params : gmap string Params) (target_state : gmap string FState)
    (rng : Rng) (transition_batch : TransitionBatch.t States Actions Arr) : exn + Arr :=
  let '(Rn, In, S_next) := slice_3_6 transition_batch in
  match getitem target_params "v_targ" with
  | inl e => inl e
  | inr params =>
  match getitem target_state "v_targ" with
  | inl e => inl e
  | inr state =>
    let '(V_next, _) := function (v_targ self) params state rng S_next false in
    let '(f, f_inv) := value_transform self in
    inr (f (eadd Rn (emul In (f_inv V_next))))
  end end.

(** The mutable part of the wrapper of the main value function, together
    with the optimizer state the updater keeps. *)
Record learner := mk_learner {
  params : Params;
  function_state : FState;
  optimizer_state : OptState
}.

(** Modelled from the spec: [update] is provided by the base class in
    [coax/td_learning/_base.py], which is not part of the sources at hand.
    The spec: it "computes the target via [target_func], computes a loss
    between the main value function's prediction at [S] and the target
    using a configurable loss function, adds an optional
    policy-regularization penalty that depends on a policy's distribution
    at [S] [...]. Applies one optimizer step to the main value function's
    parameters."  The function state "updates only as a side effect of
    calls made with the training flag enabled": the prediction at [S] is
    such a call, and its new state is the one the update stores.  [key] is
    the random key the wrapper hands out for this update. *)
Definition loss_func (self : t) (G : Arr) (state : FState) (key : Rng)
    (transition_batch : TransitionBatch.t States Actions Arr)
    (params0 : Params) : Scalar * FState :=
  let '(V_pred, state_new) :=
    function (v self) params0 state key (TransitionBatch.S transition_batch) true in
  let loss := loss_function self G V_pred in
  let loss :=
    match policy_regularizer self with
    | None => loss
    | Some penalty => scalar_add self loss (penalty (TransitionBatch.S transition_batch))
    end in
  (loss, state_new).

Definition update (self : t)
    (target_params : gmap string Params) (target_state : gmap string FState)
    (key : Rng) (transition_batch : TransitionBatch.t States Actions Arr)
    (l : learner) : exn + learner :=
  match target_func self target_params target_state key transition_batch with
  | inl e => inl e
  | inr G =>
      let objective := loss_func self G (function_state l) key transition_batch in
      let state_new := snd (objective (params l)) in
      let grads := grad self (fun p => fst (objective p)) (params l) in
      let '(updates, opt_new) := optimizer self grads (optimizer_state l) in
      inr (mk_learner (apply_updates self (params l) updates) state_new opt_new)
  end.

(** The same updater with another (or no) policy regularizer. *)
Definition with_regularizer (self : t) (reg : option (States -> Scalar)) : t :=
  mk (v self) (v_targ self) (value_transform self) (loss_function self) reg
     (scalar_add self) (grad self) (optimizer self) (apply_updates self).

(** *** The TD target *)

Lemma target_func_eq (self : t) target_params target_state rng0 tb params0 state0 :
  target_params !! "v_targ" = Some params0 ->
  target_state !! "v_targ" = Some state0 ->
  target_func self target_params target_state rng0 tb =
  inr (transform_func (value_transform self)
         (eadd (TransitionBatch.Rn tb)
            (emul (TransitionBatch.In tb)
               (inverse_func (value_transform self)
                  (fst (function (v_targ self) params0 state0 rng0
                          (TransitionBatch.S_next tb) false)))))).
Proof.
  intros Hp Hs. unfold target_func, slice_3_6, getitem. rewrite Hp, Hs.
  destruct (function (v_targ self) params0 state0 rng0 (TransitionBatch.S_next tb) false)
    as [V_next state_dropped].
  now destruct (value_transform self) as [f f_inv].
Qed.

(** C5: [target_func] takes [Rn], [In] and [S_next] from the batch,
    evaluates the target value function at [S_next] with
    [is_training=False], drops the function state that call returns, and
    answers [f(Rn + In * f_inv(V_next))]; with the default value transform
    the answer is [Rn + In * V_next].  The answer depends on the target
    value function only through its output in inference mode. *)
Theorem simple_td_target_func (self : t) target_params target_state rng0 tb params0 state0 :
  target_params !! "v_targ" = Some params0 ->
  target_state !! "v_targ" = Some state0 ->
  let V_next := fst (function (v_targ self) params0 state0 rng0
                       (TransitionBatch.S_next tb) false) in
  target_func self target_params target_state rng0 tb =
    inr (transform_func (value_transform self)
           (eadd (TransitionBatch.Rn tb)
              (emul (TransitionBatch.In tb)
                 (inverse_func (value_transform self) V_next)))) /\
  (value_transform self = init_value_transform None ->
   target_func self target_params target_state rng0 tb =
     inr (eadd (TransitionBatch.Rn tb) (emul (TransitionBatch.In tb) V_next))) /\
  (forall other : t,
     value_transform other = value_transform self ->
     (forall p st k x,
        fst (function (v_targ other) p st k x false) =
        fst (function (v_targ self) p st k x false)) ->
     target_func other target_params target_state rng0 tb =
     target_func self target_params target_state rng0 tb).
Proof.
  intros Hp Hs V_next. split; [|split].
  - now apply target_func_eq.
  - intros Hvt. rewrite (target_func_eq _ _ _ _ _ _ _ Hp Hs), Hvt. reflexivity.
  - intros other Hvt Hfun.
    rewrite !(target_func_eq _ _ _ _ _ _ _ Hp Hs), Hvt, Hfun. reflexivity.
Qed.

(** *** The update and the policy regularizer *)

(** C6: from the same parameters, function state and random key and on the
    same batch, the update with a policy regularizer and the update
    without one store the same function state, namely the one returned by
    the training-mode forward pass of the main value function at [S]. *)
Theorem simple_td_regularizer_keeps_function_state
    (self : t) (penalty : States -> Scalar) target_params target_state key tb
    (l : learner) params0 state0 :
  target_params !! "v_targ" = Some params0 ->
  target_state !! "v_targ" = Some state0 ->
  exists l_reg l_plain,
    update (with_regularizer self (Some penalty)) target_params target_state key tb l
      = inr l_reg /\
    update (with_regularizer self None) target_params target_state key tb l
      = inr l_plain /\
    function_state l_reg = function_state l_plain /\
    function_state l_plain =
      snd (function (v self) (params l) (function_state l) key (TransitionBatch.S tb) true).
Proof.
  intros Hp Hs. unfold update.
  rewrite !(target_func_eq _ _ _ _ _ _ _ Hp Hs).
  destruct (optimizer (with_regularizer self (Some penalty)) _ _) as [u1 o1].
  destruct (optimizer (with_regularizer self None) _ _) as [u2 o2].
  do 2 eexists. split; [reflexivity|]. split; [reflexivity|].
  unfold loss_func. cbn.
  destruct (function (v self) (params l) (function_state l) key (TransitionBatch.S tb) true).
  now split.
Qed.

(** *** Missing entries *)


End TD.
Arguments V : clear implicits.
Arguments t : clear implicits.
Arguments learner : clear implicits.

(** *** Batches of terminal transitions *)

Section TerminalRows.
Context {States Actions num Params FState Rng Scalar Grads Updates OptState : Type}.
Context `{!Num num}.

Lemma zero_rows_vanish (Rn X : list num) :
  (forall x, nmul nzero x = nzero) ->
  (forall x, nadd x nzero = x) ->
  length X = length Rn ->
  zip_with nadd Rn (zip_with nmul (replicate (length Rn) nzero) X) = Rn.
Proof.
  intros Hmul Hadd. revert X.
  induction Rn as [|r Rn IH]; intros [|x X] Hlen; try discriminate; [reflexivity|].
  cbn. rewrite Hmul, Hadd, IH; [reflexivity | now injection Hlen].
Qed.


End TerminalRows.

(** *** Runs on concrete inputs

    A linear value function with one weight, whose function state counts the
    forward passes made in training mode; batches hold one feature per row. *)

Definition linear_v : V (list Q) (list Q) Q Q unit :=
  mk_V (fun w count _ S is_training =>
          (Qmult w <$> S, if is_training then (count + 1)%Q else count)).

Definition squared_error (y_true y_pred : list Q) : Q :=
  foldr Qplus 0%Q (zip_with (fun y p => ((y - p) * (y - p))%Q) y_true y_pred).

Definition linear_td : t (list Q) (list Q) Q Q unit Q Q Q unit :=
  mk linear_v linear_v (init_value_transform None) squared_error None Qplus
     (fun objective w => (objective (w + 1) - objective w)%Q)
     (fun grads opt_state => (grads, opt_state))
     (fun w updates => (w - updates)%Q).

Definition one_row : TransitionBatch.t (list Q) (list nat) (list Q) :=
  TransitionBatch.mk [1%Q] [0%nat] [0%Q] [1%Q] [(9 # 10)%Q] [3%Q] [1%nat] [0%Q].

Example target_one_row :
  target_func linear_td {[ "v_targ" := 2%Q ]} {[ "v_targ" := 0%Q ]} tt one_row
  = inr [(1 + (9 # 10) * (2 * 3))%Q].
Proof. reflexivity. Qed.

Example target_missing_key :
  target_func linear_td ∅ {[ "v_targ" := 0%Q ]} tt one_row = inl (KeyError "v_targ").
Proof. reflexivity. Qed.

Lemma simple_td_target_func_witness :
  target_func linear_td {[ "v_targ" := 2%Q ]} {[ "v_targ" := 0%Q ]} tt one_row =
  inr (eadd [1%Q] (emul [(9 # 10)%Q] (Qmult 2 <$> [3%Q]))).
Proof.
  pose proof (simple_td_target_func linear_td {[ "v_targ" := 2%Q ]} {[ "v_targ" := 0%Q ]}
                tt one_row 2%Q 0%Q) as Htarget.
  destruct Htarget as (_ & Hid & _); [by_computation | by_computation |].
  apply Hid. reflexivity.
Defined.

Lemma simple_td_regularizer_keeps_function_state_witness :
  exists l_reg l_plain,
    update (with_regularizer linear_td (Some (fun S => foldr Qplus 0%Q S)))
      {[ "v_targ" := 2%Q ]} {[ "v_targ" := 0%Q ]} tt one_row (mk_learner 2%Q 0%Q tt)
      = inr l_reg /\
    update (with_regularizer linear_td None)
      {[ "v_targ" := 2%Q ]} {[ "v_targ" := 0%Q ]} tt one_row (mk_learner 2%Q 0%Q tt)
      = inr l_plain /\
    function_state l_reg = function_state l_plain /\
    function_state l_plain = 1%Q.
Proof.
  destruct (simple_td_regularizer_keeps_function_state linear_td
              (fun S => foldr Qplus 0%Q S) {[ "v_targ" := 2%Q ]} {[ "v_targ" := 0%Q ]}
              tt one_row (mk_learner 2%Q 0%Q tt) 2%Q 0%Q)
    as (l_reg & l_plain & Hreg & Hplain & Hsame & Hstate);
    [by_computation | by_computation |].
  exists l_reg, l_plain.
  split; [exact Hreg|]. split; [exact Hplain|]. split; [exact Hsame|].
  rewrite Hstate. by_computation.
Defined.

(** Integers, whose arithmetic has the two laws of zero used above. *)
#[export] Instance Z_Num : Num Z := {
  nzero := 0;
  nadd := Z.add;
  nmul := Z.mul;
  npower := Z.pow
}.

Definition integer_td : t (list Z) (list Z) Z Z unit Z Z Z unit :=
  mk (mk_V (fun w count _ S is_training => (Z.mul w <$> S, count)))
     (mk_V (fun w count _ S is_training => (Z.mul w <$> S, count)))
     (init_value_transform None)
     (fun y_true y_pred => foldr Z.add 0 (zip_with Z.sub y_true y_pred))
     None Z.add
     (fun objective w => objective (w + 1) - objective w)
     (fun grads opt_state => (grads, opt_state))
     (fun w updates => w - updates).



End SimpleTD.

(** ** [DynamicsModel]

    Only the tests of [coax/_core/dynamics_model.py] are among the sources at
    hand ([coax/_core/dynamics_model_test.py]); the definitions of this
    module are taken from the spec, section 4.2, and are checked against the
    cases of the test file. *)

Module DynamicsModel.

(** Modelled from the spec: the space descriptor is "either a discrete
    space (an integer count [n] of categories) or a box space (a
    real-valued tensor of fixed shape and elementwise bounds)".  The
    composite spaces are left out: the spec does not say which output
    structure they require. *)
Inductive Space : Type :=
  | Discrete (n : nat)
  | Box (low high : Q) (shape : list nat).

Definition is_discrete (space : Space) : bool :=
  match space with Discrete _ => true | Box _ _ _ => false end.

(** Elements of the spaces: a category index, or the entries of a tensor. *)
Inductive Value : Type :=
  | Category (i : nat)
  | Tensor (entries : list Q).

(** [x in space] *)
Definition contains (space : Space) (x : Value) : bool :=
  match space, x with
  | Discrete n, Category i => (i <? n)%nat
  | Box low high shape, Tensor entries =>
      (length entries =? foldr Nat.mul 1%nat shape)%nat &&
      forallb (fun e => Qle_bool low e && Qle_bool e high) entries
  | _, _ => false
  end.

(** The exceptions of the contract, by kind (spec, section 7), with what
    their messages report. *)
Inductive type_error : Type :=
  | BadSignature (got : list string)
  | Type2NonDiscreteActionSpace
  | BadReturnStructure (expected actual : gset string).

Inductive exn : Type :=
  | TypeError (what : type_error)
  | ValueError (missing_input : string).

(** The distribution parameters a function returns: named arrays.  Their
    structure is the set of the names, so that comparing structures does
    not depend on any order of the fields. *)
Definition DistParams : Type := gmap string (list Q).
Definition tree_structure (dist_params : DistParams) : gset string := dom dist_params.

(** A user-supplied function: its declared parameter names, and its body
    applied to positional arguments. *)
Inductive arg : Type :=
  | ArgValue (x : Value)
  | ArgFlag (is_training : bool).

Record func := mk_func {
  parameters : list string;
  body : list arg -> DistParams
}.

Inductive modeltype : Type := Type1 | Type2.

(** Modelled from the spec: construction "accepts exactly two shapes:
    [(S, A, is_training)] (type-1) or [(S, is_training)] (type-2)". *)
Definition check_signature (names : list string) : option modeltype :=
  if decide (names = ["S"; "A"; "is_training"]) then Some Type1
  else if decide (names = ["S"; "is_training"]) then Some Type2
  else None.

(** Modelled from the spec: "discrete spaces require exactly [{logits}];
    continuous/box spaces require exactly [{mu, logvar}]". *)
Definition default_structure (space : Space) : gset string :=
  match space with
  | Discrete _ => {[ "logits" ]}
  | Box _ _ _ => {[ "mu"; "logvar" ]}
  end.

Section Model.
(** What the spec leaves to the collaborators of the wrapper: the random
    keys and how one is derived per enumerated action, the inputs of the
    probe evaluation, and how the distribution of one action is
    selected from the output of a type-2 function. *)
Context {Key : Type}.
Context (fold_in : Key -> nat -> Key).
Context (example_data : Space -> Value).
Context (select_action : nat -> DistParams -> DistParams).

(** Modelled from the spec: the distribution family of the declared
    output space, which "exposes sampling/mode/log-probability
    operations"; a call "returns a sample from the next-state
    distribution", an element of that space. *)
Record ProbaDist (space : Space) := mk_ProbaDist {
  sample : DistParams -> Key -> Value;
  mode_of : DistParams -> Value;
  sample_contains : forall dist_params key, contains space (sample dist_params key) = true;
  mode_contains : forall dist_params, contains space (mode_of dist_params) = true
}.
Arguments sample {space}.
Arguments mode_of {space}.

Record t := mk {
  function : func;
  model_type : modeltype;
  observation_space : Space;
  action_space : Space;
  proba_dist : ProbaDist observation_space
}.

(** The single probe evaluation made at construction time. *)
Definition probe (f : func) (mt : modeltype) (observation_space action_space : Space)
    : DistParams :=
  match mt with
  | Type1 => body f [ArgValue (example_data observation_space);
                     ArgValue (example_data action_space); ArgFlag true]
  | Type2 => body f [ArgValue (example_data observation_space); ArgFlag true]
  end.

(** Modelled from the spec: construction inspects the parameter names,
    refuses a type-2 function over a non-discrete action space
    ("regardless of output space"), and then probes the function once
    and compares the structure of what it returns with the structure the
    output space requires. *)
Definition __init__ (f : func) (observation_space action_space : Space)
    (pd : ProbaDist observation_space) : exn + t :=
  match check_signature (parameters f) with
  | None => inl (TypeError (BadSignature (parameters f)))
  | Some mt =>
      match mt, is_discrete action_space with
      | Type2, false => inl (TypeError Type2NonDiscreteActionSpace)
      | _, _ =>
          let actual := tree_structure (probe f mt observation_space action_space) in
          let expected := default_structure observation_space in
          if decide (actual = expected)
          then inr (mk f mt observation_space action_space pd)
          else inl (TypeError (BadReturnStructure expected actual))
      end
  end.

(** The distribution parameters for state [s] and the discrete action of
    index [i], in inference mode. *)
Definition dist_params_at (m : t) (s : Value) (i : nat) : DistParams :=
  match model_type m with
  | Type1 => body (function m) [ArgValue s; ArgValue (Category i); ArgFlag false]
  | Type2 => select_action i (body (function m) [ArgValue s; ArgFlag false])
  end.

(** The distribution parameters for state [s] and a given action. *)
Definition dist_params_for (m : t) (s a : Value) : DistParams :=
  match model_type m, a with
  | Type1, _ => body (function m) [ArgValue s; ArgValue a; ArgFlag false]
  | Type2, Category i => select_action i (body (function m) [ArgValue s; ArgFlag false])
  | Type2, Tensor _ => body (function m) [ArgValue s; ArgFlag false]
  end.

Inductive output : Type :=
  | One (x : Value)
  | PerAction (xs : list Value).

(** Modelled from the spec: the call contract.  With an action, one
    variate; without one and over a discrete action space, "one sample
    per possible discrete action, in action-index order"; without one
    and over a non-discrete action space, a type-1 model raises a
    [ValueError] that names the missing input.  ([__init__] never builds a
    type-2 model over a non-discrete action space; for such a record
    there is no action to enumerate.)  [draw] is what is taken from the
    distribution: a sample for [__call__], the mode for [mode]. *)
Definition variates (draw : DistParams -> nat -> Value)
    (m : t) (s : Value) (a : option Value) : exn + output :=
  match a with
  | Some a => inr (One (draw (dist_params_for m s a) 0%nat))
  | None =>
      match action_space m, model_type m with
      | Discrete n, _ =>
          inr (PerAction ((fun i => draw (dist_params_at m s i) i) <$> seq 0 n))
      | Box _ _ _, Type1 => inl (ValueError "A")
      | Box _ _ _, Type2 => inr (PerAction [])
      end
  end.

Definition __call__ (m : t) (key : Key) (s : Value) (a : option Value) : exn + output :=
  variates (fun dist_params i => sample (proba_dist m) dist_params (fold_in key i)) m s a.

Definition mode (m : t) (s : Value) (a : option Value) : exn + output :=
  variates (fun dist_params _ => mode_of (proba_dist m) dist_params) m s a.

(** *** Construction *)

Lemma init_probed f obs act pd mt :
  check_signature (parameters f) = Some mt ->
  (mt = Type2 -> is_discrete act = true) ->
  __init__ f obs act pd =
  if decide (tree_structure (probe f mt obs act) = default_structure obs)
  then inr (mk f mt obs act pd)
  else inl (TypeError (BadReturnStructure (default_structure obs)
                         (tree_structure (probe f mt obs act)))).
Proof.
  intros Hsig Hgate. unfold __init__. rewrite Hsig.
  destruct mt; [reflexivity|]. now rewrite Hgate.
Qed.

(** C7: a function that is probed at construction (its signature is one
    of the two accepted ones and, if it is of type 2, the action space is
    discrete) must return exactly the fields [{logits}] over a discrete
    output space and exactly [{mu, logvar}] over a box output space; the
    comparison is between sets of field names.  If the sets are equal the
    construction succeeds; if they differ in any way it fails, at
    construction, with the [TypeError] that carries the expected and the
    actual structure. *)
Theorem dynamics_model_structure_check f obs act pd mt :
  check_signature (parameters f) = Some mt ->
  (mt = Type2 -> is_discrete act = true) ->
  let actual := tree_structure (probe f mt obs act) in
  let expected : gset string :=
    match obs with
    | Discrete _ => {[ "logits" ]}
    | Box _ _ _ => {[ "logvar"; "mu" ]}
    end in
  (actual = expected -> __init__ f obs act pd = inr (mk f mt obs act pd)) /\
  (actual <> expected ->
   __init__ f obs act pd = inl (TypeError (BadReturnStructure expected actual))).
Proof.
  intros Hsig Hgate actual expected.
  assert (default_structure obs = expected) as Hexp.
  { unfold expected. destruct obs; cbn; [reflexivity|]. set_solver. }
  rewrite (init_probed f obs act pd mt Hsig Hgate), Hexp. fold actual.
  split; intros Hcmp; destruct (decide (actual = expected)); congruence.
Qed.

(** C8: a function with the type-2 signature [(S, is_training)] over a
    non-discrete action space is refused at construction with the
    dedicated [TypeError], whatever the observation space and whatever
    the function returns; over a discrete action space, with a function
    that returns the required structure, the construction succeeds. *)
Theorem dynamics_model_type2_action_space f obs act pd :
  parameters f = ["S"; "is_training"] ->
  (is_discrete act = false ->
   __init__ f obs act pd = inl (TypeError Type2NonDiscreteActionSpace)) /\
  (is_discrete act = true ->
   tree_structure (probe f Type2 obs act) = default_structure obs ->
   __init__ f obs act pd = inr (mk f Type2 obs act pd)).
Proof.
  intros Hpar.
  assert (check_signature (parameters f) = Some Type2) as Hsig by now rewrite Hpar.
  split.
  - intros Hact. unfold __init__. now rewrite Hsig, Hact.
  - intros Hact Hstruct. rewrite (init_probed f obs act pd Type2 Hsig); [|easy].
    now destruct (decide _).
Qed.

(** *** Calls without an action *)

Lemma variates_discrete draw m s n0 :
  action_space m = Discrete n0 ->
  variates draw m s None =
  inr (PerAction ((fun i => draw (dist_params_at m s i) i) <$> seq 0 n0)).
Proof. intros Hact. unfold variates. rewrite Hact. now destruct (model_type m). Qed.


End Model.
Arguments sample {Key space}.
Arguments mode_of {Key space}.

(** *** Runs on the cases of the test file

    Random keys are lists of noise values.  The two distribution families
    below stand in for the categorical and the clipped normal
    distribution: the first takes the largest (perturbed) logit, the second
    clips the (perturbed) mean to the bounds of the box. *)

Definition fold_in_noise (key : list Q) (i : nat) : list Q := drop i key.

Definition example_of (space : Space) : Value :=
  match space with
  | Discrete _ => Category 0
  | Box low _ shape => Tensor (replicate (foldr Nat.mul 1%nat shape) low)
  end.

Definition field (name : string) (dist_params : DistParams) : list Q :=
  default [] (dist_params !! name).

Definition argmax (n : nat) (xs : list Q) : nat :=
  fold_left (fun best i => if Qle_bool (nth i xs 0%Q) (nth best xs 0%Q) then best else i)
    (seq 0 n) 0%nat.

Definition clip (low high x : Q) : Q :=
  if Qle_bool x low then low else if Qle_bool high x then high else x.

Lemma argmax_lt n xs : (0 < n)%nat -> (argmax n xs < n)%nat.
Proof.
  intros Hn. unfold argmax.
  assert (forall l best, (best < n)%nat -> Forall (fun i => (i < n)%nat) l ->
            (fold_left (fun best i =>
               if Qle_bool (nth i xs 0%Q) (nth best xs 0%Q) then best else i) l best < n)%nat)
    as Hfold.
  { induction l as [|i l IH]; intros best Hbest Hall; [exact Hbest|].
    inversion Hall as [|? ? Hi Hl]; subst. cbn.
    apply IH; [|exact Hl]. now destruct (Qle_bool _ _). }
  apply Hfold; [exact Hn|]. apply Forall_forall. intros i Hi.
  apply elem_of_seq in Hi. lia.
Qed.

Lemma clip_bounds low high x :
  Qle_bool low high = true ->
  Qle_bool low (clip low high x) && Qle_bool (clip low high x) high = true.
Proof.
  intros Hlh. unfold clip.
  destruct (Qle_bool x low) eqn:Hxl.
  - rewrite Hlh, andb_true_r. apply Qle_bool_iff, Qle_refl.
  - destruct (Qle_bool high x) eqn:Hhx.
    + rewrite Hlh. cbn. apply Qle_bool_iff, Qle_refl.
    + apply andb_true_iff. split; apply Qle_bool_iff, Qlt_le_weak, Qnot_le_lt;
        intros Hle; apply Qle_bool_iff in Hle; congruence.
Qed.

Lemma clipped_contains low high shape (entry : nat -> Q) :
  Qle_bool low high = true ->
  contains (Box low high shape)
    (Tensor ((fun j => clip low high (entry j)) <$> seq 0 (foldr Nat.mul 1%nat shape))) = true.
Proof.
  intros Hlh. cbn. rewrite length_fmap, length_seq, Nat.eqb_refl. cbn.
  apply forallb_forall. intros e He. apply in_map_iff in He as (j & <- & _).
  now apply clip_bounds.
Qed.

Program Definition categorical (n : nat) : ProbaDist (Key := list Q) (Discrete (S n)) :=
  {| sample := fun dist_params key =>
       Category (argmax (S n) (zip_with Qplus (field "logits" dist_params) key));
     mode_of := fun dist_params => Category (argmax (S n) (field "logits" dist_params)) |}.
Next Obligation. intros n dp key. apply Nat.ltb_lt, argmax_lt. lia. Qed.
Next Obligation. intros n dp. apply Nat.ltb_lt, argmax_lt. lia. Qed.

Program Definition clipped_normal (low high : Q) (shape : list nat)
    (Hbounds : Qle_bool low high = true) : ProbaDist (Key := list Q) (Box low high shape) :=
  {| sample := fun dist_params key =>
       Tensor ((fun j => clip low high
                  (nth j (field "mu" dist_params) 0 + nth j key 0)%Q)
                 <$> seq 0 (foldr Nat.mul 1%nat shape));
     mode_of := fun dist_params =>
       Tensor ((fun j => clip low high (nth j (field "mu" dist_params) 0%Q))
                 <$> seq 0 (foldr Nat.mul 1%nat shape)) |}.
Next Obligation.
  intros low high shape Hb dp key.
  now apply (clipped_contains low high shape
               (fun j => (nth j (field "mu" dp) 0 + nth j key 0)%Q)).
Qed.
Next Obligation.
  intros low high shape Hb dp.
  now apply (clipped_contains low high shape (fun j => nth j (field "mu" dp) 0%Q)).
Qed.

(** The spaces and the functions of the test file (their bodies are neural
    networks there; what matters here is the names they return). *)
Definition discrete : Space := Discrete 7.
Definition boxspace : Space := Box 0 1 [3; 5]%nat.

Definition on_discrete : ProbaDist (Key := list Q) discrete := categorical 6.
Definition on_boxspace : ProbaDist (Key := list Q) boxspace :=
  clipped_normal 0 1 [3; 5]%nat eq_refl.

Definition func_discrete_type1 : func :=
  mk_func ["S"; "A"; "is_training"] (fun _ => {[ "logits" := replicate 7 0%Q ]}).
Definition func_discrete_type2 : func :=
  mk_func ["S"; "is_training"] (fun _ => {[ "logits" := replicate 49 0%Q ]}).
Definition func_boxspace_type1 : func :=
  mk_func ["S"; "A"; "is_training"]
    (fun _ => {[ "mu" := replicate 15 (1 # 2)%Q; "logvar" := replicate 15 0%Q ]}).
Definition func_boxspace_type2 : func :=
  mk_func ["S"; "is_training"]
    (fun _ => {[ "mu" := replicate 105 (1 # 2)%Q; "logvar" := replicate 105 0%Q ]}).
Definition badfunc_signature : func :=
  mk_func ["S"; "is_training"; "x"] (fun _ => ∅).
Definition badfunc_structure : func :=
  mk_func ["S"; "is_training"]
    (fun _ => {[ "logits" := replicate 49 0%Q; "foo" := [0%Q] ]}).

(** What construction raises, if anything. *)
Definition init_error {space : Space} (f : func) (action_space : Space)
    (pd : ProbaDist (Key := list Q) space) : option exn :=
  match __init__ example_of f space action_space pd with
  | inl e => Some e
  | inr _ => None
  end.

Example test_init_type2_boxspace_actions :
  init_error func_boxspace_type2 boxspace on_boxspace
    = Some (TypeError Type2NonDiscreteActionSpace) /\
  init_error func_discrete_type2 boxspace on_discrete
    = Some (TypeError Type2NonDiscreteActionSpace).
Proof. split; reflexivity. Qed.

Example test_init_expected_mu_logvar :
  let raised := Some (TypeError (BadReturnStructure {[ "logvar"; "mu" ]} {[ "logits" ]})) in
  init_error func_discrete_type1 discrete on_boxspace = raised /\
  init_error func_discrete_type2 discrete on_boxspace = raised /\
  init_error func_discrete_type1 boxspace on_boxspace = raised.
Proof. vm_compute. repeat split. Qed.

Example test_init_expected_logits :
  let raised := Some (TypeError (BadReturnStructure {[ "logits" ]} {[ "logvar"; "mu" ]})) in
  init_error func_boxspace_type1 discrete on_discrete = raised /\
  init_error func_boxspace_type2 discrete on_discrete = raised /\
  init_error func_boxspace_type1 boxspace on_discrete = raised.
Proof. vm_compute. repeat split. Qed.

Example test_init_fine :
  init_error func_discrete_type1 boxspace on_discrete = None /\
  init_error func_discrete_type1 discrete on_discrete = None /\
  init_error func_discrete_type2 discrete on_discrete = None /\
  init_error func_boxspace_type1 boxspace on_boxspace = None /\
  init_error func_boxspace_type1 discrete on_boxspace = None /\
  init_error func_boxspace_type2 discrete on_boxspace = None.
Proof. vm_compute. repeat split. Qed.

Example test_bad_input_signature :
  init_error badfunc_signature discrete on_boxspace
    = Some (TypeError (BadSignature ["S"; "is_training"; "x"])).
Proof. reflexivity. Qed.

Example test_bad_output_structure :
  init_error badfunc_structure discrete on_discrete
    = Some (TypeError (BadReturnStructure {[ "logits" ]} {[ "foo"; "logits" ]})).
Proof. vm_compute. reflexivity. Qed.

Lemma dynamics_model_structure_check_witness :
  __init__ example_of func_discrete_type1 boxspace discrete on_boxspace =
    inl (TypeError (BadReturnStructure {[ "logvar"; "mu" ]} {[ "logits" ]})) /\
  __init__ example_of func_discrete_type1 discrete discrete on_discrete =
    inr (mk func_discrete_type1 Type1 discrete discrete on_discrete).
Proof.
  split.
  - apply (dynamics_model_structure_check example_of func_discrete_type1
             boxspace discrete on_boxspace Type1).
    + reflexivity.
    + discriminate.
    + intros Heq. apply (f_equal (fun fields => bool_decide ("mu" ∈ fields))) in Heq.
      vm_compute in Heq. discriminate Heq.
  - apply (dynamics_model_structure_check example_of func_discrete_type1
             discrete discrete on_discrete Type1).
    + reflexivity.
    + discriminate.
    + by_computation.
Defined.

Lemma dynamics_model_type2_action_space_witness :
  __init__ example_of func_boxspace_type2 boxspace boxspace on_boxspace =
    inl (TypeError Type2NonDiscreteActionSpace) /\
  __init__ example_of func_boxspace_type2 boxspace discrete on_boxspace =
    inr (mk func_boxspace_type2 Type2 boxspace discrete on_boxspace).
Proof.
  split.
  - apply (dynamics_model_type2_action_space example_of func_boxspace_type2
             boxspace boxspace on_boxspace); reflexivity.
  - apply (dynamics_model_type2_action_space example_of func_boxspace_type2
             boxspace discrete on_boxspace); [reflexivity | reflexivity | by_computation].
Defined.


End DynamicsModel.
